(** * grep_search: a bounded regex search over a sandboxed file tree

    A shallow embedding of
    [tools/src/aden_tools/tools/file_system_toolkits/grep_search/grep_search.py]
    and the properties of its result envelope.

    The Python function threads one mutable list, [matches], through a
    nested helper ([process_file]) and three traversal modes.  The embedding
    passes that list explicitly in a [state], next to a chronological log of
    the calls the function makes to its collaborators (the path resolver and
    the filesystem), so that statements of the form "nothing was opened" can
    be written down. *)

From Stdlib Require Import String Ascii List Arith ZArith Lia Bool.
From stdpp Require Import base decidable option list gmap strings pretty.

Local Open Scope string_scope.
Local Open Scope list_scope.
Local Open Scope nat_scope.

(** ** The Python string and [os.path] functions the tool calls

    A [String.string] holds the UTF-8 encoding of a Python [str], one
    [ascii] per byte: a path as the resolver and [os] give it, a line as
    the decoder of [open(..., encoding="utf-8")] yields it.  The functions
    below follow CPython's [str] methods and [posixpath] on that encoding:
    the separators and the dot of a path are single bytes that occur in no
    longer encoding, and whitespace is recognised by the encodings of the
    whitespace code points. *)

Module Py.

(** [str.lower], on the ASCII letters. *)
Definition lower_ascii (c : ascii) : ascii :=
  let n := nat_of_ascii c in
  if (65 <=? n) && (n <=? 90) then ascii_of_nat (n + 32) else c.

Fixpoint lower (s : string) : string :=
  match s with
  | EmptyString => EmptyString
  | String c s' => String (lower_ascii c) (lower s')
  end.

(** [str.isspace], read off the encoding.  CPython counts as whitespace
    the code points U+0009 to U+000D, U+001C to U+0020, U+0085, U+00A0,
    U+1680, U+2000 to U+200A, U+2028, U+2029, U+202F, U+205F and U+3000;
    [space1], [space2] and [space3] are their encodings on one, two and
    three bytes. *)
Definition space1 (b1 : nat) : bool :=
  ((9 <=? b1) && (b1 <=? 13)) || ((28 <=? b1) && (b1 <=? 32)).

Definition space2 (b1 b2 : nat) : bool :=
  (b1 =? 194) && ((b2 =? 133) || (b2 =? 160)).

Definition space3 (b1 b2 b3 : nat) : bool :=
  ((b1 =? 225) && (b2 =? 154) && (b3 =? 128))
  || ((b1 =? 226) && (b2 =? 128)
      && (((128 <=? b3) && (b3 <=? 138))
          || (b3 =? 168) || (b3 =? 169) || (b3 =? 175)))
  || ((b1 =? 226) && (b2 =? 129) && (b3 =? 159))
  || ((b1 =? 227) && (b2 =? 128) && (b3 =? 128)).

(** [space_prefix s] is what follows the first character of [s] when that
    character is whitespace, and [None] when [s] is empty or starts with
    another character. *)
Definition space_prefix (s : string) : option string :=
  match s with
  | EmptyString => None
  | String c1 r1 =>
      if space1 (nat_of_ascii c1) then Some r1
      else
        match r1 with
        | EmptyString => None
        | String c2 r2 =>
            if space2 (nat_of_ascii c1) (nat_of_ascii c2) then Some r2
            else
              match r2 with
              | EmptyString => None
              | String c3 r3 =>
                  if space3 (nat_of_ascii c1) (nat_of_ascii c2)
                       (nat_of_ascii c3)
                  then Some r3 else None
              end
        end
  end.

(** [str.lstrip()]: whitespace characters are taken off the front until
    another character or the end; [n] bounds the number of characters
    taken, and the length of the string is always enough. *)
Fixpoint lstrip_upto (n : nat) (s : string) : string :=
  match n with
  | 0 => s
  | S n' =>
      match space_prefix s with
      | Some rest => lstrip_upto n' rest
      | None => s
      end
  end.

Definition lstrip (s : string) : string := lstrip_upto (String.length s) s.

(** Strings made of whitespace characters only. *)
Fixpoint blank_upto (n : nat) (s : string) : bool :=
  match s with
  | EmptyString => true
  | String _ _ =>
      match n with
      | 0 => false
      | S n' =>
          match space_prefix s with
          | Some rest => blank_upto n' rest
          | None => false
          end
      end
  end.

Definition blank (s : string) : bool := blank_upto (String.length s) s.

(** [str.rstrip()]: the string is cut where what remains is whitespace
    only. *)
Fixpoint rstrip (s : string) : string :=
  if blank s then EmptyString
  else
    match s with
    | EmptyString => EmptyString
    | String c s' => String c (rstrip s')
    end.

(** [str.strip()] with no argument. *)
Definition strip (s : string) : string := rstrip (lstrip s).

(** Whether the last character of a string is whitespace. *)
Fixpoint ends_with_space (s : string) : bool :=
  match s with
  | EmptyString => false
  | String _ s' =>
      match space_prefix s with
      | Some EmptyString => true
      | _ => ends_with_space s'
      end
  end.

Definition startswith_sep (s : string) : bool :=
  match s with
  | String "/" _ => true
  | _ => false
  end.

Fixpoint endswith_sep (s : string) : bool :=
  match s with
  | EmptyString => false
  | String c EmptyString => Ascii.eqb c "/"
  | String _ s' => endswith_sep s'
  end.

(** [posixpath.join(a, b)]: an absolute [b] discards [a]; otherwise one
    separator is put between the two unless [a] is empty or already ends
    with one. *)
Definition join (a b : string) : string :=
  if startswith_sep b then b
  else if String.eqb a EmptyString || endswith_sep a then a +:+ b
  else a +:+ "/" +:+ b.

(** [posixpath.join(a, *p)] folds [join] from the left. *)
Definition join_all (a : string) (p : list string) : string :=
  fold_left join p a.

(** [str.rfind] of one character: the last index, or -1. *)
Fixpoint rfind_from (c : ascii) (s : string) (i : Z) (last : Z) : Z :=
  match s with
  | EmptyString => last
  | String c' s' =>
      rfind_from c s' (i + 1) (if Ascii.eqb c' c then i else last)
  end.

Definition rfind (c : ascii) (s : string) : Z := rfind_from c s 0 (-1).

Fixpoint all_dots (s : string) : bool :=
  match s with
  | EmptyString => true
  | String c s' => Ascii.eqb c "." && all_dots s'
  end.

(** [p[i:j]] for [0 <= i]. *)
Definition slice (p : string) (i j : Z) : string :=
  String.substring (Z.to_nat i) (Z.to_nat (j - i)) p.

(** [posixpath.splitext], that is [genericpath._splitext(p, "/", None, ".")]:
    the extension starts at the last dot of the last path component,
    unless that component consists of leading dots up to there. *)
Definition splitext (p : string) : string * string :=
  let sepIndex := rfind "/" p in
  let dotIndex := rfind "." p in
  if (sepIndex <? dotIndex)%Z
     && negb (all_dots (slice p (sepIndex + 1) dotIndex))
  then (slice p 0 dotIndex,
        slice p dotIndex (Z.of_nat (String.length p)))
  else (p, EmptyString).

(** [str.split("/")]. *)
Fixpoint split_go (cur : string) (s : string) : list string :=
  match s with
  | EmptyString => [String.rev cur]
  | String c s' =>
      if Ascii.eqb c "/" then String.rev cur :: split_go EmptyString s'
      else split_go (String c cur) s'
  end.

Definition split (s : string) : list string := split_go EmptyString s.

(** ["/".join(l)]. *)
Fixpoint sep_join (l : list string) : string :=
  match l with
  | [] => EmptyString
  | [x] => x
  | x :: l' => x +:+ "/" +:+ sep_join l'
  end.

(** The component stack of [posixpath.normpath] for an absolute path:
    empty components and [.] are dropped, [..] pops (and is dropped at the
    root). *)
Fixpoint norm_comps (done : list string) (todo : list string)
  : list string :=
  match todo with
  | [] => rev done
  | c :: todo' =>
      if String.eqb c EmptyString || String.eqb c "." then norm_comps done todo'
      else if String.eqb c ".."
           then norm_comps (tail done) todo'
           else norm_comps (c :: done) todo'
  end.

(** The components of [posixpath.abspath(p)] below the root, for a
    process whose working directory is [cwd]. *)
Definition abs_comps (cwd p : string) : list string :=
  norm_comps [] (split (if startswith_sep p then p else join cwd p)).

Fixpoint drop_common (a b : list string) : list string * list string :=
  match a, b with
  | x :: a', y :: b' =>
      if String.eqb x y then drop_common a' b' else (a, b)
  | _, _ => (a, b)
  end.

(** [posixpath.relpath(path, start)]; [None] stands for the [ValueError]
    the function raises (on POSIX: for an empty [path]). *)
Definition relpath (cwd path start : string) : option string :=
  if String.eqb path EmptyString then None
  else
    let '(start_rest, path_rest) :=
      drop_common (abs_comps cwd start) (abs_comps cwd path) in
    let rel_list := repeat ".." (length start_rest) ++ path_rest in
    Some (match rel_list with [] => "." | _ => sep_join rel_list end).

End Py.

(** ** Data model *)

(** One element of [matches]: the dict
    [{"file": ..., "line_number": ..., "line_content": ...}]. *)
Record MatchRecord := {
  file : string;
  line_number : nat;
  line_content : string;
}.

(** The values stored in the result dict. *)
Inductive pyval :=
| PyBool (b : bool)
| PyInt (n : nat)
| PyStr (s : string)
| PyList (ms : list MatchRecord).

(** The exceptions that reach the handlers at the end of [grep_search]:
    the two classes with a handler of their own, and every other
    [Exception], carried as its [str(e)]. *)
Inductive exn :=
| FileNotFoundError
| PermissionError
| Exception (str : string).

(** What can go wrong with one file inside [process_file]; the three
    classes of its [except] clause. *)
Inductive read_failure :=
| UnicodeDecodeError
| FilePermissionError
| FileOSError.

(** A file as [process_file] sees it: iterating over the open file yields
    [file_lines] in order and then, when [file_error] is [Some e], raises
    [e].  A failure of [open] itself is the case [file_lines = []].  When
    the read fails, [file_lines] are the lines the iteration has yielded
    by then and no others: the decoder works on blocks of the file, so
    these can be fewer than the lines that precede the offending byte.
    When [file_error] is [None] they are all the lines of the file. *)
Record file_data := {
  file_lines : list string;
  file_error : option read_failure;
}.

(** The tree found at a path: regular files and directories (symbolic
    links and special files are left out).  The entries of a directory are
    kept in the order in which the operating system lists them; a directory
    that cannot be listed has [readable = false]. *)
Local Unset Elimination Schemes.
Inductive node :=
| File (f : file_data)
| Dir (readable : bool) (entries : list (string * node)).
Local Set Elimination Schemes.

(** The exceptions of [re.compile] that are not [re.error]: its parser
    raises [OverflowError] for a repetition count of [2**32 - 1] or more,
    and [RecursionError] for groups nested too deep. *)
Inductive compile_exn :=
| OverflowError (msg : string)
| RecursionError (msg : string).

(** The regex engine ([re]).  [re.compile] has three outcomes.  It returns
    a compiled pattern or raises [re.error], which the function catches:
    [re_compile] answers [inr rx] and [inl msg], with the [msg] of the
    [re.error].  Or it raises another exception, which the clause
    [except re.error] lets through: [re_compile_raises] answers that
    exception, and [None] for the patterns of the first two outcomes (for
    a pattern that raises, the value of [re_compile] is not looked at). *)
Class Regex := {
  regex : Type;
  re_compile : string → string + regex;
  re_search : regex → string → bool;
  re_compile_raises : string → option compile_exn;
}.

(** What the function is given by its surroundings: the resolver and
    constant of [..security], [os.path.relpath] ([None] for [ValueError]),
    and the tree found at a resolved path ([None]: nothing is there). *)
Record World := {
  get_secure_path : string → string → string → string → exn + string;
  WORKSPACES_DIR : string;
  relpath : string → string → option string;
  lookup_path : string → option node;
}.

(** The calls that leave the function, in the order they are made: the
    resolver, [os.path.isfile], the listing of a directory by [os.walk],
    [os.listdir], and [open]. *)
Inductive event :=
| EvResolve (path workspace_id agent_id session_id : string)
| EvIsFile (p : string)
| EvWalk (p : string)
| EvListdir (p : string)
| EvOpen (p : string).

Record state := {
  matches : list MatchRecord;
  trace : list event;
}.

Definition log (e : event) (st : state) : state :=
  {| matches := matches st; trace := trace st ++ [e] |}.

(** [matches.append(m)]. *)
Definition append_match (m : MatchRecord) (st : state) : state :=
  {| matches := matches st ++ [m]; trace := trace st |}.

(** What [process_file] returns: [None], or the string ["STOP"]. *)
Inductive signal := RetNone | STOP.

(** ** Constants *)

Definition IGNORED_DIRS : gset string :=
  list_to_set
    ["node_modules"; ".git"; "__pycache__"; ".venv"; "venv";
     "dist"; "build"; ".pytest_cache"; ".mypy_cache"].

Definition BINARY_EXTENSIONS : gset string :=
  list_to_set
    [".pyc"; ".pyo"; ".pyd"; ".class"; ".o"; ".so"; ".dll"; ".exe"; ".dylib";
     ".db"; ".sqlite"; ".sqlite3";
     ".zip"; ".tar"; ".gz"; ".7z"; ".rar"; ".whl";
     ".png"; ".jpg"; ".jpeg"; ".gif"; ".webp"; ".ico"; ".svg";
     ".mp3"; ".mp4"; ".mov"; ".avi";
     ".pdf"; ".docx"; ".xlsx";
     ".ttf"; ".otf"; ".woff"; ".woff2"].

Definition MAX_MATCHES : nat := 1000.

(** ** The function *)

Section GrepSearch.

Context `{RE : Regex}.
Variable W : World.

(** [len(matches) >= MAX_MATCHES] *)
Definition cap_reached (st : state) : bool :=
  MAX_MATCHES <=? length (matches st).

(** [ext.lower() in BINARY_EXTENSIONS] for [_, ext = splitext(full_path)] *)
Definition binary_ext (full_path : string) : bool :=
  let '(_, ext) := Py.splitext full_path in
  bool_decide (Py.lower ext ∈ BINARY_EXTENSIONS).

(** [os.path.relpath(full_path, session_root)], with the full path as the
    fallback of the [except ValueError] branch. *)
Definition display_path_of (session_root full_path : string) : string :=
  match relpath W full_path session_root with
  | Some rel => rel
  | None => full_path
  end.

Section ProcessFile.

(** The variables [process_file] closes over. *)
Variable rx : regex.
Variable session_root : string.

(** The body of [for i, line in enumerate(f, 1)] over the lines that
    are still to come, [i] being the number of the first of them.  When
    the iterator is exhausted the loop ends; when it raises, the
    [except] clause passes: [process_file] returns [None] both ways. *)
Fixpoint scan_lines (display_path : string) (i : nat)
    (lines : list string) (err : option read_failure) (st : state)
  : signal * state :=
  match lines with
  | [] =>
      match err with
      | None => (RetNone, st)
      | Some (UnicodeDecodeError | FilePermissionError | FileOSError) =>
          (RetNone, st)
      end
  | line :: rest =>
      if cap_reached st then (STOP, st)
      else
        let st' :=
          if re_search rx line
          then append_match {| file := display_path;
                               line_number := i;
                               line_content := Py.strip line |} st
          else st in
        scan_lines display_path (S i) rest err st'
  end.

Definition process_file (full_path : string) (f : file_data) (st : state)
  : signal * state :=
  if binary_ext full_path then (RetNone, st)
  else
    let display_path := display_path_of session_root full_path in
    scan_lines display_path 1 (file_lines f) (file_error f)
               (log (EvOpen full_path) st).

(** [for filename in filenames] of the recursive branch; every name
    that [os.walk] reports as a non-directory comes with its file. *)
Fixpoint walk_filenames (root : string)
    (filenames : list (string * file_data)) (st : state) : state :=
  match filenames with
  | [] => st
  | (filename, f) :: rest =>
      if cap_reached st then st
      else
        let full_path := Py.join root filename in
        match process_file full_path f st with
        | (STOP, st') => st'
        | (RetNone, st') => walk_filenames root rest st'
        end
  end.

(** The non-directories among the entries of a directory. *)
Fixpoint filenames_of (entries : list (string * node))
  : list (string * file_data) :=
  match entries with
  | [] => []
  | (name, File f) :: rest => (name, f) :: filenames_of rest
  | (_, Dir _ _) :: rest => filenames_of rest
  end.

(** [for root, dirs, filenames in os.walk(top)] with the loop body of
    the recursive branch run at every triple the generator yields.
    [os.walk] lists [top]; a failure to do so is swallowed (its
    [onerror] is [None]) and the walk of [top] yields nothing.
    Otherwise it yields the triple for [top], and afterwards walks, in
    order, the subdirectories the body has left in [dirs].  The boolean
    tells whether the body has left the loop by [break]. *)
Fixpoint walk (top : string) (n : node) (st : state) {struct n}
  : bool * state :=
  let st := log (EvWalk top) st in
  match n with
  | File _ => (false, st)
  | Dir false _ => (false, st)
  | Dir true entries =>
      if cap_reached st then (true, st)
      else
        let st := walk_filenames top (filenames_of entries) st in
        (fix walk_dirs (es : list (string * node)) (st : state)
           : bool * state :=
           match es with
           | [] => (false, st)
           | (d, sub) :: es' =>
               match sub with
               | File _ => walk_dirs es' st
               | Dir _ _ =>
                   if bool_decide (d ∈ IGNORED_DIRS) then walk_dirs es' st
                   else
                     match walk (Py.join top d) sub st with
                     | (true, st') => (true, st')
                     | (false, st') => walk_dirs es' st'
                     end
               end
           end) entries st
  end.

(** [walk_dirs] names the loop over [dirs] that [walk] runs once the
    triple of a directory has been handled. *)
Definition walk_dirs (top : string)
  : list (string * node) → state → bool * state :=
  fix walk_dirs (es : list (string * node)) (st : state)
    : bool * state :=
    match es with
    | [] => (false, st)
    | (d, sub) :: es' =>
        match sub with
        | File _ => walk_dirs es' st
        | Dir _ _ =>
            if bool_decide (d ∈ IGNORED_DIRS) then walk_dirs es' st
            else
              match walk (Py.join top d) sub st with
              | (true, st') => (true, st')
              | (false, st') => walk_dirs es' st'
              end
        end
    end.

(** [for item in os.listdir(secure_path)] of the non-recursive
    branch. *)
Fixpoint listdir_loop (secure_path : string)
    (items : list (string * node)) (st : state) : state :=
  match items with
  | [] => st
  | (item, n) :: rest =>
      let full_path := Py.join secure_path item in
      let st := log (EvIsFile full_path) st in
      match n with
      | File f =>
          match process_file full_path f st with
          | (STOP, st') => st'
          | (RetNone, st') => listdir_loop secure_path rest st'
          end
      | Dir _ _ => listdir_loop secure_path rest st
      end
  end.

(** The three-way "search logic" of the [try] block: a file, a recursive
    walk, or one directory listing.  [os.listdir] raises where there is
    nothing to list or no permission to; [os.walk] does not.  (The last
    case of the listing cannot be reached: a file takes the first
    branch.) *)
Definition search_logic (secure_path : string) (recursive : bool)
    (st : state) : (exn + unit) * state :=
  let st := log (EvIsFile secure_path) st in
  match lookup_path W secure_path with
  | Some (File f) =>
      (inr (), snd (process_file secure_path f st))
  | target =>
      if recursive then
        match target with
        | Some n => (inr (), snd (walk secure_path n st))
        | None => (inr (), log (EvWalk secure_path) st)
        end
      else
        let st := log (EvListdir secure_path) st in
        match target with
        | None => (inl FileNotFoundError, st)
        | Some (Dir false _) => (inl PermissionError, st)
        | Some (Dir true entries) =>
            (inr (), listdir_loop secure_path entries st)
        | Some (File _) =>
            (inl (Exception ("[Errno 20] Not a directory: '"
                             +:+ secure_path +:+ "'")), st)
        end
  end.

End ProcessFile.

(** The success envelope built after the search. *)
Definition success_envelope (pattern path : string) (recursive : bool)
    (ms : list MatchRecord) : gmap string pyval :=
  let result : gmap string pyval :=
    <["total_matches" := PyInt (length ms)]>
    (<["matches" := PyList ms]>
    (<["recursive" := PyBool recursive]>
    (<["path" := PyStr path]>
    (<["pattern" := PyStr pattern]>
    (<["success" := PyBool true]> ∅))))) in
  if MAX_MATCHES <=? length ms
  then <["warning" := PyStr ("Stopped early after reaching MAX_MATCHES="
                             +:+ pretty MAX_MATCHES)]> result
  else result.

(** The three [except] clauses closing the [try] block. *)
Definition error_envelope (path : string) (e : exn) : gmap string pyval :=
  match e with
  | FileNotFoundError =>
      {[ "error" := PyStr ("Directory or file not found: " +:+ path) ]}
  | PermissionError =>
      {[ "error" := PyStr ("Permission denied accessing: " +:+ path) ]}
  | Exception str =>
      {[ "error" := PyStr ("Failed to perform grep search: " +:+ str) ]}
  end.

(** [os.path.join(WORKSPACES_DIR, workspace_id, agent_id, session_id)] *)
Definition session_root_of (workspace_id agent_id session_id : string)
  : string :=
  Py.join_all (WORKSPACES_DIR W) [workspace_id; agent_id; session_id].

(** [grep_search], returning the dict together with the log of the calls
    it has made.  This is the function from its first [try] on, for a
    pattern on which [re.compile] returns or raises [re.error]: every
    call that returns a dict returns this one ([grep_search_call] below
    is the call with the exceptions that [re.compile] lets out). *)
Definition grep_search_run
    (path pattern workspace_id agent_id session_id : string)
    (recursive : bool) : gmap string pyval * list event :=
  match re_compile pattern with
  | inl msg =>
      ({[ "error" := PyStr ("Invalid regex pattern: " +:+ msg) ]}, [])
  | inr rx =>
      let st := {| matches := [];
                   trace := [EvResolve path workspace_id agent_id
                                       session_id] |} in
      match get_secure_path W path workspace_id agent_id session_id with
      | inl e => (error_envelope path e, trace st)
      | inr secure_path =>
          let session_root :=
            session_root_of workspace_id agent_id session_id in
          match search_logic rx session_root secure_path recursive st with
          | (inl e, st') => (error_envelope path e, trace st')
          | (inr _, st') =>
              (success_envelope pattern path recursive (matches st'),
               trace st')
          end
      end
  end.

Definition grep_search
    (path pattern workspace_id agent_id session_id : string)
    (recursive : bool) : gmap string pyval :=
  fst (grep_search_run path pattern workspace_id agent_id session_id
                       recursive).

(** One call of the function, whole: it returns a dict, or an exception
    leaves it.  The second [try] catches every [Exception]; the first
    catches [re.error] only, so an exception of [re.compile] of another
    class leaves the function before anything else is done.  Everywhere
    else the call returns the dict of [grep_search_run]. *)
Inductive outcome :=
| Returns (result : gmap string pyval)
| Raises (e : compile_exn).

Definition grep_search_call
    (path pattern workspace_id agent_id session_id : string)
    (recursive : bool) : outcome * list event :=
  match re_compile_raises pattern with
  | Some e => (Raises e, [])
  | None =>
      let run := grep_search_run path pattern workspace_id agent_id
                                 session_id recursive in
      (Returns (fst run), snd run)
  end.

End GrepSearch.

Section Induction.

Variable P : node → Prop.
Hypothesis P_file : ∀ f, P (File f).
Hypothesis P_dir :
  ∀ readable entries, Forall (λ e, P (snd e)) entries → P (Dir readable entries).

Fixpoint node_ind_entries (n : node) : P n :=
  match n with
  | File f => P_file f
  | Dir readable entries =>
      P_dir readable entries
        ((fix all (es : list (string * node)) : Forall (λ e, P (snd e)) es :=
            match es with
            | [] => List.Forall_nil _
            | (name, sub) :: es' =>
                List.Forall_cons _ (name, sub) es' (node_ind_entries sub) (all es')
            end) entries)
  end.

End Induction.

(** ** The candidate files of a request, as a list

    The traversal modes differ in the files they hand to [process_file]
    and in nothing else; the lists below name those files, with their full
    paths, in the order of the traversal. *)

Section Candidates.

Context `{RE : Regex}.
Variable W : World.
Variable rx : regex.
Variable session_root : string.

Definition record_of (display_path : string) (i : nat) (line : string)
  : MatchRecord :=
  {| file := display_path; line_number := i; line_content := Py.strip line |}.

(** The records of the matching lines of a file whose first line has
    number [i]. *)
Fixpoint hits (display_path : string) (i : nat) (lines : list string)
  : list MatchRecord :=
  match lines with
  | [] => []
  | line :: rest =>
      (if re_search rx line then [record_of display_path i line] else [])
      ++ hits display_path (S i) rest
  end.

(** Everything one candidate could add to [matches]. *)
Definition records (c : string * file_data) : list MatchRecord :=
  if binary_ext c.1 then []
  else hits (display_path_of W session_root c.1) 1 (file_lines c.2).

Definition in_dir (root : string) (filenames : list (string * file_data))
  : list (string * file_data) :=
  map (λ e, (Py.join root e.1, e.2)) filenames.

(** The files [os.walk] reaches from [top] when the directories with an
    ignored name are taken out of [dirs] at every level. *)
Fixpoint walk_files (top : string) (n : node) {struct n}
  : list (string * file_data) :=
  match n with
  | File _ => []
  | Dir false _ => []
  | Dir true entries =>
      in_dir top (filenames_of entries) ++
      (fix below (es : list (string * node)) : list (string * file_data) :=
         match es with
         | [] => []
         | (d, sub) :: es' =>
             match sub with
             | File _ => below es'
             | Dir _ _ =>
                 if bool_decide (d ∈ IGNORED_DIRS) then below es'
                 else walk_files (Py.join top d) sub ++ below es'
             end
         end) entries
  end.

Definition walk_files_dirs (top : string)
  : list (string * node) → list (string * file_data) :=
  fix below (es : list (string * node)) : list (string * file_data) :=
    match es with
    | [] => []
    | (d, sub) :: es' =>
        match sub with
        | File _ => below es'
        | Dir _ _ =>
            if bool_decide (d ∈ IGNORED_DIRS) then below es'
            else walk_files (Py.join top d) sub ++ below es'
        end
    end.

Definition candidates (secure_path : string) (recursive : bool)
  : list (string * file_data) :=
  match lookup_path W secure_path with
  | Some (File f) => [(secure_path, f)]
  | Some (Dir true entries) =>
      if recursive then walk_files secure_path (Dir true entries)
      else in_dir secure_path (filenames_of entries)
  | _ => []
  end.

(** [matches] after a scan that could add [new]: appending stops at the
    cap. *)
Definition absorb (ms new : list MatchRecord) : list MatchRecord :=
  ms ++ take (MAX_MATCHES - length ms) new.

(** [accounts cands st st'] says that running from [st] to [st'] has
    handed (some of) the candidates [cands] to [process_file] and done
    nothing else to [matches]; a file has been opened only if it is one
    of them and its extension is not binary. *)
Definition accounts (cands : list (string * file_data))
    (st st' : state) : Prop :=
  matches st' = absorb (matches st) (flat_map records cands)
  ∧ ∀ p, EvOpen p ∈ trace st' →
      EvOpen p ∈ trace st ∨ (binary_ext p = false ∧ ∃ f, (p, f) ∈ cands).

End Candidates.

(** [located n loc f]: following the names [loc] down from [n] ends at the
    file [f]. *)
Inductive located : node → list string → file_data → Prop :=
| located_entry readable entries name f :
    (name, File f) ∈ entries →
    located (Dir readable entries) [name] f
| located_below readable entries d sub loc f :
    (d, sub) ∈ entries →
    located sub loc f →
    located (Dir readable entries) (d :: loc) f.

(** The lines of a file that the pattern matches. *)
Definition matching_lines `{RE : Regex} (rx : regex) (f : file_data)
  : list string :=
  List.filter (re_search rx) (file_lines f).

(** The same tree with every read failure taken away: each file ends
    where its read would have failed. *)
Definition without_failure (f : file_data) : file_data :=
  {| file_lines := file_lines f; file_error := None |}.

Fixpoint heal (n : node) : node :=
  match n with
  | File f => File (without_failure f)
  | Dir readable entries =>
      Dir readable
        ((fix heal_entries (es : list (string * node)) : list (string * node) :=
            match es with
            | [] => []
            | (name, sub) :: es' => (name, heal sub) :: heal_entries es'
            end) entries)
  end.

Definition heal_entries : list (string * node) → list (string * node) :=
  fix heal_entries (es : list (string * node)) : list (string * node) :=
    match es with
    | [] => []
    | (name, sub) :: es' => (name, heal sub) :: heal_entries es'
    end.

Definition healed (W : World) : World :=
  {| get_secure_path := get_secure_path W;
     WORKSPACES_DIR := WORKSPACES_DIR W;
     relpath := relpath W;
     lookup_path := λ p, heal <$> lookup_path W p |}.

(** ** Descriptions used for the log of calls and for completeness *)

(** The path a call is made on; the call of the resolver has none. *)
Definition event_path (e : event) : option string :=
  match e with
  | EvResolve _ _ _ _ => None
  | EvIsFile p | EvWalk p | EvListdir p | EvOpen p => Some p
  end.

(** [reaches n loc]: the names [loc] can be followed down from [n]. *)
Inductive reaches : node → list string → Prop :=
| reaches_here n : reaches n []
| reaches_below readable entries d sub loc :
    (d, sub) ∈ entries →
    reaches sub loc →
    reaches (Dir readable entries) (d :: loc).


(** [extends Q st st']: from [st] to [st'] the log has only grown, by
    calls that all satisfy [Q]. *)
Definition extends (Q : event → Prop) (st st' : state) : Prop :=
  ∃ evs, trace st' = trace st ++ evs ∧ Forall Q evs.

(** The calls made on [top] or on something inside the tree [n] found
    there. *)
Definition inside (top : string) (n : node) (e : event) : Prop :=
  ∃ loc, reaches n loc ∧ event_path e = Some (Py.join_all top loc).

(** The paths that were opened, in the order of the calls. *)
Definition opened_paths (tr : list event) : list string :=
  flat_map (λ e, match e with EvOpen p => [p] | _ => [] end) tr.

(** The candidates that are met while [matches], starting from [ms], is
    still below the cap, less those with a binary extension. *)
Fixpoint opened_until_cap `{RE : Regex} (W : World) (rx : regex)
    (session_root : string) (cands : list (string * file_data))
    (ms : list MatchRecord) : list string :=
  match cands with
  | [] => []
  | c :: rest =>
      if MAX_MATCHES <=? length ms then []
      else
        (if binary_ext c.1 then [] else [c.1])
        ++ opened_until_cap W rx session_root rest
             (absorb ms (records W rx session_root c))
  end.

(** [opens_account cands st st']: running from [st] to [st'] has handed
    the candidates [cands] to the recursive branch; it says what [matches]
    has become and which files have been opened on the way. *)
Definition opens_account `{RE : Regex} (W : World) (rx : regex)
    (session_root : string) (cands : list (string * file_data))
    (st st' : state) : Prop :=
  matches st'
  = absorb (matches st) (flat_map (records W rx session_root) cands)
  ∧ opened_paths (trace st')
    = opened_paths (trace st)
      ++ opened_until_cap W rx session_root cands (matches st).

(** ** Concrete worlds

    A small regex engine and a few trees, used to run the function. *)

Module Sample.

Definition plain_char (c : ascii) : bool :=
  let n := nat_of_ascii c in
  ((48 <=? n) && (n <=? 57)) || ((65 <=? n) && (n <=? 90))
  || ((97 <=? n) && (n <=? 122)) || (n =? 32) || (n =? 95).

Fixpoint plain (s : string) : bool :=
  match s with
  | EmptyString => true
  | String c s' => plain_char c && plain s'
  end.

Definition contains (pat s : string) : bool :=
  match String.index 0 pat s with
  | Some _ => true
  | None => false
  end.

(** The engine knows the patterns made of letters, digits, blanks and
    underscores, which [re] searches as substrings, the pattern ["("],
    which [re.compile] rejects with the message below, and the pattern
    ["a{4294967296}"], on which [re.compile] raises [OverflowError]. *)
#[export] Instance engine : Regex := {|
  regex := string;
  re_compile pattern :=
    if plain pattern then inr pattern
    else if String.eqb pattern "("
         then inl "missing ), unterminated subpattern"
         else inl "pattern outside the sample engine";
  re_search := contains;
  re_compile_raises pattern :=
    if String.eqb pattern "a{4294967296}"
    then Some (OverflowError "the repetition number is too large")
    else None;
|}.

Definition text (lines : list string) : node :=
  File {| file_lines := lines; file_error := None |}.

Definition unreadable (e : read_failure) : node :=
  File {| file_lines := []; file_error := Some e |}.

(** A world whose sessions live under [/ws], whose resolver joins the
    session root and the logical path, and where the tree [n] sits at
    the path [at_path] (and nothing anywhere else). *)
Definition world (at_path : string) (n : option node) : World := {|
  get_secure_path path workspace_id agent_id session_id :=
    inr (Py.join (Py.join_all "/ws" [workspace_id; agent_id; session_id])
                 path);
  WORKSPACES_DIR := "/ws";
  relpath := Py.relpath "/";
  lookup_path p := if String.eqb p at_path then n else None;
|}.

Definition project : node :=
  Dir true
    [ ("notes.txt", text ["TODO: fix"; "done"]);
      ("icon.png", text ["TODO: fix"]);
      ("locked.txt", unreadable FilePermissionError);
      ("src", Dir true [ ("foo.txt", text ["  hello world  "]) ]);
      ("node_modules", Dir true [ ("bar.txt", text ["hello world"]) ]) ].

Definition project_world : World := world "/ws/w/a/s/proj" (Some project).

(** A log of [n] lines that all match [error]. *)
Definition big_log (n : nat) : node :=
  text (repeat "error: crash happened" n).

Definition log_world (n : nat) : World :=
  world "/ws/w/a/s/large.logs" (Some (big_log n)).

(** The search is pointed at a directory called [node_modules]. *)
Definition vendored_world : World :=
  world "/ws/w/a/s/node_modules"
        (Some (Dir true [ ("bar.txt", text ["hello world"]) ])).

(** The search is pointed at the subdirectory [src] of the session. *)
Definition src_world : World :=
  world "/ws/w/a/s/src"
        (Some (Dir true [ ("foo.txt", text ["hello world"]) ])).

(** Nothing exists at the resolved path. *)
Definition empty_world : World := world "/ws/w/a/s/proj" None.

(** The resolved path is a directory that cannot be listed. *)
Definition locked_world : World :=
  world "/ws/w/a/s/proj" (Some (Dir false [])).

Definition image_world : World :=
  world "/ws/w/a/s/Icon.PNG" (Some (text ["TODO: fix"])).

(** A line that starts with a no-break space (U+00A0) and a blank, and
    ends with an ideographic space (U+3000) and the line feed. *)
Definition nbsp : string :=
  String (ascii_of_nat 194) (String (ascii_of_nat 160) EmptyString).

Definition ideographic_space : string :=
  String (ascii_of_nat 227)
    (String (ascii_of_nat 128) (String (ascii_of_nat 128) EmptyString)).

Definition line_feed : string := String (ascii_of_nat 10) EmptyString.

Definition padded_line : string :=
  nbsp +:+ " hello world" +:+ ideographic_space +:+ line_feed.

Definition padded_world : World :=
  world "/ws/w/a/s/note.txt" (Some (text [padded_line])).

(** A file whose read fails with [UnicodeDecodeError] after it has
    yielded two lines. *)
Definition torn_world : World :=
  world "/ws/w/a/s/torn.txt"
        (Some (File {| file_lines := ["hello one"; "hello two"];
                       file_error := Some UnicodeDecodeError |})).

End Sample.

(** A world whose resolver refuses every path with the exception [e]. *)
Module Refusing.

Definition world (e : exn) : World := {|
  get_secure_path _ _ _ _ := inl e;
  WORKSPACES_DIR := "/ws";
  relpath := Py.relpath "/";
  lookup_path _ := None;
|}.

End Refusing.

(** ** Theorems *)

Arguments MAX_MATCHES : simpl never.
Arguments walk : simpl never.
Arguments walk_files : simpl never.

(** *** What [strip] removes *)

Lemma string_app_cons c s t : String c s +:+ t = String c (s +:+ t).
Proof. reflexivity. Qed.

Lemma string_app_assoc a b c : (a +:+ b) +:+ c = a +:+ b +:+ c.
Proof.
  induction a as [|x a IH]; [done|]. by rewrite !string_app_cons, IH.
Qed.

Lemma string_app_length a b :
  String.length (a +:+ b) = String.length a + String.length b.
Proof.
  induction a as [|c0 a IH]; [done|]. rewrite string_app_cons. simpl.
  by rewrite IH.
Qed.

(** One whitespace character at the front: what is taken off is not empty,
    and what follows it does not matter. *)
Lemma space_prefix_split s rest :
  Py.space_prefix s = Some rest →
  ∃ w, s = w +:+ rest ∧ 0 < String.length w
       ∧ ∀ t, Py.space_prefix (w +:+ t) = Some t.
Proof.
  unfold Py.space_prefix.
  destruct s as [|c1 r1]; [done|].
  destruct (Py.space1 _) eqn:H1.
  { intros [= <-]. exists (String c1 EmptyString). split; [done|].
    split; [simpl; lia|]. intros t. rewrite string_app_cons. simpl.
    unfold Py.space_prefix. by rewrite H1. }
  destruct r1 as [|c2 r2]; [done|].
  destruct (Py.space2 _ _) eqn:H2.
  { intros [= <-]. exists (String c1 (String c2 EmptyString)). split; [done|].
    split; [simpl; lia|]. intros t. rewrite !string_app_cons. simpl.
    unfold Py.space_prefix. by rewrite H1, H2. }
  destruct r2 as [|c3 r3]; [done|].
  destruct (Py.space3 _ _ _) eqn:H3; [|done].
  intros [= <-]. exists (String c1 (String c2 (String c3 EmptyString))).
  split; [done|]. split; [simpl; lia|]. intros t.
  rewrite !string_app_cons. simpl.
  unfold Py.space_prefix. by rewrite H1, H2, H3.
Qed.

Lemma space_prefix_app s rest t :
  Py.space_prefix s = Some rest → Py.space_prefix (s +:+ t) = Some (rest +:+ t).
Proof.
  intros (w & -> & _ & Hw)%space_prefix_split. by rewrite string_app_assoc, Hw.
Qed.

Lemma space_prefix_length s rest :
  Py.space_prefix s = Some rest → String.length rest < String.length s.
Proof.
  intros (w & -> & Hlen & _)%space_prefix_split. rewrite string_app_length. lia.
Qed.

Lemma blank_upto_enough n m s :
  String.length s ≤ n → String.length s ≤ m →
  Py.blank_upto n s = Py.blank_upto m s.
Proof.
  revert m s. induction n as [|n IH]; intros m s Hn Hm.
  - destruct s; [by destruct m|simpl in Hn; lia].
  - destruct s as [|c s]; [by destruct m|].
    destruct m as [|m]; [simpl in Hm; lia|].
    cbn [Py.blank_upto].
    destruct (Py.space_prefix (String c s)) as [rest|] eqn:Hp; [|done].
    apply space_prefix_length in Hp. apply IH; simpl in *; lia.
Qed.

Lemma blank_unfold s :
  Py.blank s =
  match s with
  | EmptyString => true
  | String _ _ =>
      match Py.space_prefix s with
      | Some rest => Py.blank rest
      | None => false
      end
  end.
Proof.
  unfold Py.blank. destruct s as [|c s]; [done|].
  cbn [String.length]. cbn [Py.blank_upto].
  destruct (Py.space_prefix (String c s)) as [rest|] eqn:Hp; [|done].
  apply space_prefix_length in Hp. apply blank_upto_enough; simpl in *; lia.
Qed.

Lemma lstrip_upto_enough n m s :
  String.length s ≤ n → String.length s ≤ m →
  Py.lstrip_upto n s = Py.lstrip_upto m s.
Proof.
  revert m s. induction n as [|n IH]; intros m s Hn Hm.
  - destruct s; [|simpl in Hn; lia]. by destruct m.
  - destruct m as [|m].
    { destruct s; [done|simpl in Hm; lia]. }
    simpl. destruct (Py.space_prefix s) as [rest|] eqn:Hp; [|done].
    apply space_prefix_length in Hp. apply IH; lia.
Qed.

Lemma lstrip_unfold s :
  Py.lstrip s =
  match Py.space_prefix s with
  | Some rest => Py.lstrip rest
  | None => s
  end.
Proof.
  unfold Py.lstrip. destruct s as [|c s]; [done|].
  cbn [String.length]. cbn [Py.lstrip_upto].
  destruct (Py.space_prefix (String c s)) as [rest|] eqn:Hp; [|done].
  apply space_prefix_length in Hp. apply lstrip_upto_enough; simpl in *; lia.
Qed.

Lemma blank_app a b :
  Py.blank a = true → Py.blank b = true → Py.blank (a +:+ b) = true.
Proof.
  remember (String.length a) as n eqn:Hn. revert a Hn.
  induction n as [n IH] using lt_wf_ind. intros a -> Ha Hb.
  destruct a as [|c a]; [done|]. rewrite blank_unfold in Ha.
  destruct (Py.space_prefix (String c a)) as [rest|] eqn:Hp; [|done].
  rewrite blank_unfold, string_app_cons, <- string_app_cons.
  rewrite (space_prefix_app _ _ b Hp).
  apply space_prefix_length in Hp. by eapply IH.
Qed.

Lemma lstrip_spec s :
  ∃ pre,
    s = pre +:+ Py.lstrip s
    ∧ Py.blank pre = true
    ∧ Py.space_prefix (Py.lstrip s) = None.
Proof.
  remember (String.length s) as n eqn:Hn. revert s Hn.
  induction n as [n IH] using lt_wf_ind. intros s ->.
  rewrite lstrip_unfold.
  destruct (Py.space_prefix s) as [rest|] eqn:Hp; [|by exists EmptyString].
  pose proof (space_prefix_length _ _ Hp) as Hlen.
  destruct (IH _ Hlen rest eq_refl) as (pre & Heq & Hpre & Hnone).
  apply space_prefix_split in Hp as (w & -> & Hw & Hstep).
  exists (w +:+ pre). split; [by rewrite string_app_assoc, <- Heq|]. split; [|done].
  rewrite blank_unfold. destruct (w +:+ pre) eqn:Hwp.
  - done.
  - by rewrite <- Hwp, Hstep.
Qed.

Lemma rstrip_unfold s :
  Py.rstrip s =
  if Py.blank s then EmptyString
  else match s with
       | EmptyString => EmptyString
       | String c s' => String c (Py.rstrip s')
       end.
Proof. by destruct s. Qed.

Lemma rstrip_split s :
  ∃ post, s = Py.rstrip s +:+ post ∧ Py.blank post = true.
Proof.
  induction s as [|c s (post & Heq & Hpost)]; [by exists EmptyString|].
  rewrite rstrip_unfold. destruct (Py.blank (String c s)) eqn:Hb.
  - by exists (String c s).
  - exists post. by rewrite string_app_cons, <- Heq.
Qed.

Lemma rstrip_no_blank_suffix s a b :
  Py.rstrip s = a +:+ b → Py.blank b = true → b = EmptyString.
Proof.
  revert a. induction s as [|c s IH]; intros a.
  - destruct a, b; done.
  - rewrite rstrip_unfold. destruct (Py.blank (String c s)) eqn:Hb.
    + by destruct a, b.
    + destruct a as [|x a].
      * change (EmptyString +:+ b) with b. intros <- Hblank.
        destruct (rstrip_split s) as (post & Heq & Hpost).
        assert (Py.blank (String c s) = true); [|congruence].
        rewrite Heq, <- string_app_cons. by apply blank_app.
      * rewrite string_app_cons. intros [= _ Heq]. exact (IH a Heq).
Qed.

Lemma strip_spec s :
  ∃ pre post,
    s = pre +:+ Py.strip s +:+ post
    ∧ Py.blank pre = true
    ∧ Py.blank post = true
    ∧ Py.space_prefix (Py.strip s) = None
    ∧ Py.ends_with_space (Py.strip s) = false.
Proof.
  destruct (lstrip_spec s) as (pre & Heq & Hpre & Hfirst).
  destruct (rstrip_split (Py.lstrip s)) as (post & Heq' & Hpost).
  exists pre, post. unfold Py.strip. split; [by rewrite <- Heq'|].
  do 2 (split; [done|]). split.
  - destruct (Py.space_prefix (Py.rstrip (Py.lstrip s))) as [rest|] eqn:Hp;
      [|done].
    apply (space_prefix_app _ _ post) in Hp. rewrite <- Heq' in Hp. congruence.
  - pose proof (rstrip_no_blank_suffix (Py.lstrip s)) as Hno.
    revert Hno. generalize (Py.rstrip (Py.lstrip s)) as r. clear.
    induction r as [|c r IH]; intros Hno; [done|].
    cbn [Py.ends_with_space].
    assert (Py.ends_with_space r = false) as ->.
    { apply IH. intros a b Heq. apply (Hno (String c a)).
      by rewrite string_app_cons, Heq. }
    destruct (Py.space_prefix (String c r)) as [[|x rest]|] eqn:Hp; [|done..].
    assert (String c r = EmptyString); [|done].
    apply (Hno EmptyString); [done|]. by rewrite blank_unfold, Hp.
Qed.

Section Facts.

Context `{RE : Regex}.
Variable W : World.
Variable rx : regex.
Variable session_root : string.

Local Abbreviation accounts := (accounts W rx session_root).

Lemma walk_dir_unfold top entries st :
  walk W rx session_root top (Dir true entries) st =
  let st1 := log (EvWalk top) st in
  if cap_reached st1 then (true, st1)
  else walk_dirs W rx session_root top entries
         (walk_filenames W rx session_root top (filenames_of entries) st1).
Proof. reflexivity. Qed.

Lemma walk_files_dir_unfold top entries :
  walk_files top (Dir true entries) =
  in_dir top (filenames_of entries) ++ walk_files_dirs top entries.
Proof. reflexivity. Qed.

Lemma walk_leaf_unfold top n st :
  (∀ entries, n ≠ Dir true entries) →
  walk W rx session_root top n st = (false, log (EvWalk top) st)
  ∧ walk_files top n = [].
Proof. intros Hn. by destruct n as [f|[] entries]; [|destruct (Hn entries)|]. Qed.

Lemma walk_dirs_cons top d sub es st :
  walk_dirs W rx session_root top ((d, sub) :: es) st =
  match sub with
  | File _ => walk_dirs W rx session_root top es st
  | Dir _ _ =>
      if bool_decide (d ∈ IGNORED_DIRS)
      then walk_dirs W rx session_root top es st
      else
        match walk W rx session_root (Py.join top d) sub st with
        | (true, st') => (true, st')
        | (false, st') => walk_dirs W rx session_root top es st'
        end
  end.
Proof. reflexivity. Qed.

Lemma walk_files_dirs_cons top d sub es :
  walk_files_dirs top ((d, sub) :: es) =
  match sub with
  | File _ => walk_files_dirs top es
  | Dir _ _ =>
      if bool_decide (d ∈ IGNORED_DIRS) then walk_files_dirs top es
      else walk_files (Py.join top d) sub ++ walk_files_dirs top es
  end.
Proof. reflexivity. Qed.

(** *** Arithmetic of the cap *)

Lemma cap_reached_true st :
  cap_reached st = true ↔ MAX_MATCHES ≤ length (matches st).
Proof. unfold cap_reached. apply Nat.leb_le. Qed.

Lemma cap_reached_false st :
  cap_reached st = false ↔ length (matches st) < MAX_MATCHES.
Proof. unfold cap_reached. apply Nat.leb_gt. Qed.

Lemma absorb_full ms new :
  MAX_MATCHES ≤ length ms → absorb ms new = ms.
Proof.
  intros Hcap. unfold absorb.
  replace (MAX_MATCHES - length ms) with 0 by lia.
  rewrite take_0. apply app_nil_r.
Qed.

Lemma absorb_nil ms : absorb ms [] = ms.
Proof. unfold absorb. rewrite take_nil. apply app_nil_r. Qed.

Lemma absorb_empty new : absorb [] new = take MAX_MATCHES new.
Proof. unfold absorb. rewrite app_nil_l. by f_equal. Qed.

Lemma absorb_snoc ms m new :
  length ms < MAX_MATCHES → absorb (ms ++ [m]) new = absorb ms (m :: new).
Proof.
  intros Hlt. unfold absorb. rewrite length_app. simpl.
  destruct (MAX_MATCHES - length ms) as [|k] eqn:Hk; [lia|].
  replace (MAX_MATCHES - (length ms + 1)) with k by lia.
  simpl. by rewrite <- app_assoc.
Qed.

Lemma absorb_app ms a b : absorb (absorb ms a) b = absorb ms (a ++ b).
Proof.
  unfold absorb. rewrite take_app, <- app_assoc. do 2 f_equal.
  rewrite length_app, length_take. f_equal. lia.
Qed.

Lemma absorb_length ms new :
  length ms ≤ MAX_MATCHES → length (absorb ms new) ≤ MAX_MATCHES.
Proof.
  intros Hle. unfold absorb. rewrite length_app, length_take. lia.
Qed.

Lemma elem_of_absorb m ms new : m ∈ absorb ms new → m ∈ ms ∨ m ∈ new.
Proof.
  unfold absorb. rewrite elem_of_app. intros [?|Hin]; [by left|right].
  by eapply subseteq_take.
Qed.

(** *** The line scanner *)

Lemma scan_lines_matches dp i lines err st :
  matches (scan_lines rx dp i lines err st).2 =
  absorb (matches st) (hits rx dp i lines).
Proof.
  revert i st. induction lines as [|line rest IH]; intros i st.
  - simpl. rewrite absorb_nil. by destruct err as [[]|].
  - simpl. destruct (cap_reached st) eqn:Hcap.
    + apply cap_reached_true in Hcap. by rewrite absorb_full.
    + apply cap_reached_false in Hcap. rewrite IH.
      destruct (re_search rx line); simpl; [|done].
      by apply absorb_snoc.
Qed.

Lemma scan_lines_trace dp i lines err st :
  trace (scan_lines rx dp i lines err st).2 = trace st.
Proof.
  revert i st. induction lines as [|line rest IH]; intros i st.
  - by destruct err as [[]|].
  - simpl. destruct (cap_reached st); [done|]. rewrite IH.
    by destruct (re_search rx line).
Qed.

Lemma scan_lines_stop dp i lines err st :
  (scan_lines rx dp i lines err st).1 = STOP →
  cap_reached (scan_lines rx dp i lines err st).2 = true.
Proof.
  revert i st. induction lines as [|line rest IH]; intros i st.
  - by destruct err as [[]|].
  - simpl. destruct (cap_reached st) eqn:Hcap; [done|]. apply IH.
Qed.

(** A failing read ends the scan exactly as the end of the file does. *)
Lemma scan_lines_failure dp i lines err st :
  scan_lines rx dp i lines err st = scan_lines rx dp i lines None st.
Proof.
  revert i st. induction lines as [|line rest IH]; intros i st.
  - by destruct err as [[]|].
  - simpl. destruct (cap_reached st); [done|]. apply IH.
Qed.

(** *** One file *)

Lemma process_file_matches p f st :
  matches (process_file W rx session_root p f st).2 =
  absorb (matches st) (records W rx session_root (p, f)).
Proof.
  unfold process_file, records. simpl.
  destruct (binary_ext p); simpl; [by rewrite absorb_nil|].
  by rewrite scan_lines_matches.
Qed.

Lemma process_file_stop p f st :
  (process_file W rx session_root p f st).1 = STOP →
  cap_reached (process_file W rx session_root p f st).2 = true.
Proof.
  unfold process_file. destruct (binary_ext p); [done|].
  apply scan_lines_stop.
Qed.

Lemma process_file_trace p f st :
  trace (process_file W rx session_root p f st).2 =
  if binary_ext p then trace st else trace st ++ [EvOpen p].
Proof.
  unfold process_file. destruct (binary_ext p); [done|].
  by rewrite scan_lines_trace.
Qed.

Lemma process_file_heal p f st :
  process_file W rx session_root p (without_failure f) st =
  process_file W rx session_root p f st.
Proof.
  unfold process_file. destruct (binary_ext p); [done|]. simpl.
  symmetry. apply scan_lines_failure.
Qed.

(** *** The loops *)

Lemma accounts_refl st : accounts [] st st.
Proof. split; [by rewrite absorb_nil|auto]. Qed.

Lemma accounts_log e st :
  (∀ p, e ≠ EvOpen p) → accounts [] st (log e st).
Proof.
  intros Hne. split; [by rewrite absorb_nil|].
  simpl. intros p [?|Hin%list_elem_of_singleton]%elem_of_app; [by left|].
  by destruct (Hne p).
Qed.

Lemma accounts_trans c1 c2 st1 st2 st3 :
  accounts c1 st1 st2 → accounts c2 st2 st3 → accounts (c1 ++ c2) st1 st3.
Proof.
  intros [Hm1 Ho1] [Hm2 Ho2]. split.
  - by rewrite Hm2, Hm1, absorb_app, flat_map_app.
  - intros p Hp. destruct (Ho2 p Hp) as [Hp2|(Hb & f & Hf)].
    + destruct (Ho1 p Hp2) as [?|(Hb & f & Hf)]; [by left|right].
      split; [done|]. exists f. apply elem_of_app. by left.
    + right. split; [done|]. exists f. apply elem_of_app. by right.
Qed.

(** Once the cap is reached the candidates that were not visited would
    have added nothing. *)
Lemma accounts_capped c1 c2 st st' :
  accounts c1 st st' → cap_reached st' = true → accounts (c1 ++ c2) st st'.
Proof.
  intros [Hm Ho] Hcap%cap_reached_true. split.
  - rewrite flat_map_app, <- absorb_app, <- Hm. by rewrite absorb_full.
  - intros p Hp. destruct (Ho p Hp) as [?|(Hb & f & Hf)]; [by left|right].
    split; [done|]. exists f. apply elem_of_app. by left.
Qed.

Lemma process_file_accounts p f st :
  accounts [(p, f)] st (process_file W rx session_root p f st).2.
Proof.
  split.
  - rewrite process_file_matches. simpl. by rewrite app_nil_r.
  - intros q. rewrite process_file_trace.
    destruct (binary_ext p) eqn:Hb; [by left|].
    intros [?|Hq%list_elem_of_singleton]%elem_of_app; [by left|].
    injection Hq as ->. right. split; [done|]. exists f. by left.
Qed.

Lemma walk_filenames_accounts root filenames st :
  accounts (in_dir root filenames) st
           (walk_filenames W rx session_root root filenames st).
Proof.
  revert st. induction filenames as [|[name f] rest IH]; intros st.
  - apply accounts_refl.
  - simpl. destruct (cap_reached st) eqn:Hcap.
    + apply (accounts_capped []); [apply accounts_refl|done].
    + pose proof (process_file_accounts (Py.join root name) f st) as Hacc.
      pose proof (process_file_stop (Py.join root name) f st) as Hstop.
      destruct (process_file _ _ _ _ _ _) as [[] st']; simpl in *.
      * apply (accounts_trans [_] _ st st'); [done|apply IH].
      * apply (accounts_capped [_]); auto.
Qed.

Lemma listdir_loop_accounts secure_path items st :
  accounts (in_dir secure_path (filenames_of items)) st
           (listdir_loop W rx session_root secure_path items st).
Proof.
  revert st. induction items as [|[item n] rest IH]; intros st.
  - apply accounts_refl.
  - simpl.
    set (full_path := Py.join secure_path item).
    assert (accounts [] st (log (EvIsFile full_path) st)) as Hlog
      by (by apply accounts_log).
    destruct n as [f|readable entries].
    + pose proof (process_file_accounts full_path f
                    (log (EvIsFile full_path) st)) as Hacc.
      pose proof (process_file_stop full_path f
                    (log (EvIsFile full_path) st)) as Hstop.
      destruct (process_file _ _ _ _ _ _) as [[] st']; simpl in *.
      * apply (accounts_trans [] (_ :: _) st _ _ Hlog).
        apply (accounts_trans [_] _ _ st'); [done|apply IH].
      * apply (accounts_trans [] (_ :: _) st _ _ Hlog).
        apply (accounts_capped [_]); auto.
    + apply (accounts_trans [] _ st _ _ Hlog), IH.
Qed.

Lemma walk_dirs_accounts top entries st :
  Forall (λ e, ∀ top st,
            accounts (walk_files top e.2) st
                     (walk W rx session_root top e.2 st).2
            ∧ ((walk W rx session_root top e.2 st).1 = true →
               cap_reached (walk W rx session_root top e.2 st).2 = true))
         entries →
  accounts (walk_files_dirs top entries) st
           (walk_dirs W rx session_root top entries st).2
  ∧ ((walk_dirs W rx session_root top entries st).1 = true →
     cap_reached (walk_dirs W rx session_root top entries st).2 = true).
Proof.
  intros Hall. revert st.
  induction Hall as [|[d sub] rest Hsub _ IH]; intros st.
  - split; [apply accounts_refl|done].
  - rewrite walk_dirs_cons, walk_files_dirs_cons.
    specialize (Hsub (Py.join top d) st). simpl in Hsub.
    destruct sub as [f|readable entries]; [apply IH|].
    destruct (bool_decide (d ∈ IGNORED_DIRS)); [apply IH|].
    destruct (walk _ _ _ _ _ _) as [[] st']; simpl in *.
    + destruct Hsub as [Hacc Hcap]. split; [|done].
      apply accounts_capped; auto.
    + destruct Hsub as [Hacc _]. destruct (IH st') as [Hrest Hcap].
      split; [|done]. by apply (accounts_trans _ _ st st').
Qed.

Lemma walk_accounts n top st :
  accounts (walk_files top n) st (walk W rx session_root top n st).2
  ∧ ((walk W rx session_root top n st).1 = true →
     cap_reached (walk W rx session_root top n st).2 = true).
Proof.
  revert top st. induction n as [f|readable entries IH] using node_ind_entries;
    intros top st.
  - destruct (walk_leaf_unfold top (File f) st) as [-> ->]; [done|].
    split; [by apply accounts_log|done].
  - destruct readable; cycle 1.
    { destruct (walk_leaf_unfold top (Dir false entries) st) as [-> ->];
        [done|].
      split; [by apply accounts_log|done]. }
    rewrite walk_dir_unfold, walk_files_dir_unfold. cbv zeta.
    assert (accounts [] st (log (EvWalk top) st)) as Hlog
      by (by apply accounts_log).
    destruct (cap_reached (log (EvWalk top) st)) eqn:Hcap.
    + simpl. split; [|done]. apply (accounts_capped []); auto.
    + pose proof (walk_filenames_accounts top (filenames_of entries)
                    (log (EvWalk top) st)) as Hfiles.
      destruct (walk_dirs_accounts top entries
                  (walk_filenames W rx session_root top
                     (filenames_of entries) (log (EvWalk top) st)) IH)
        as [Hdirs Hbrk].
      split; [|done].
      apply (accounts_trans [] _ st _ _ Hlog).
      by eapply accounts_trans.
Qed.

(** *** Where the candidates sit in the tree *)

Lemma elem_of_in_dir p f root entries :
  (p, f) ∈ in_dir root (filenames_of entries) →
  ∃ name, (name, File f) ∈ entries ∧ p = Py.join root name.
Proof.
  induction entries as [|[name [g|readable es]] rest IH]; simpl.
  - by intros ?%elem_of_nil.
  - intros [Heq|Hin]%elem_of_cons.
    + injection Heq as -> ->. exists name. split; [by left|done].
    + destruct (IH Hin) as (name' & ? & ?). exists name'.
      split; [by right|done].
  - intros Hin. destruct (IH Hin) as (name' & ? & ?). exists name'.
    split; [by right|done].
Qed.

Lemma elem_of_walk_files_dirs p f top entries :
  (p, f) ∈ walk_files_dirs top entries →
  ∃ d sub, (d, sub) ∈ entries ∧ (d ∉ IGNORED_DIRS)
           ∧ (p, f) ∈ walk_files (Py.join top d) sub.
Proof.
  induction entries as [|[d sub] rest IH].
  - by intros ?%elem_of_nil.
  - rewrite walk_files_dirs_cons. intros Hin.
    assert ((p, f) ∈ walk_files_dirs top rest →
            ∃ d0 sub0, (d0, sub0) ∈ (d, sub) :: rest ∧ (d0 ∉ IGNORED_DIRS)
                       ∧ (p, f) ∈ walk_files (Py.join top d0) sub0) as Hrest.
    { intros (d0 & sub0 & ? & ?)%IH. exists d0, sub0.
      split; [by right|done]. }
    destruct sub as [g|readable es]; [by apply Hrest|].
    case_bool_decide as Hign; [by apply Hrest|].
    apply elem_of_app in Hin as [Hin|Hin]; [|by apply Hrest].
    exists d, (Dir readable es). split; [by left|done].
Qed.

Lemma walk_files_located n top p f :
  (p, f) ∈ walk_files top n →
  ∃ dirs name,
    located n (dirs ++ [name]) f
    ∧ Forall (λ d, d ∉ IGNORED_DIRS) dirs
    ∧ p = Py.join_all top (dirs ++ [name]).
Proof.
  revert top. induction n as [g|readable entries IH] using node_ind_entries;
    intros top.
  - change (walk_files top (File g)) with (@nil (string * file_data)).
    by intros ?%elem_of_nil.
  - destruct readable; cycle 1.
    { change (walk_files top (Dir false entries))
        with (@nil (string * file_data)).
      by intros ?%elem_of_nil. }
    rewrite walk_files_dir_unfold.
    intros [Hin|Hin]%elem_of_app.
    + destruct (elem_of_in_dir _ _ _ _ Hin) as (name & Hname & ->).
      exists [], name. split; [by constructor|]. split; [constructor|done].
    + apply elem_of_walk_files_dirs in Hin as (d & sub & Hd & Hnot & Hsub).
      rewrite Forall_forall in IH.
      destruct (IH _ Hd _ Hsub) as (dirs & name & Hloc & Hdirs & ->).
      exists (d :: dirs), name. split; [by econstructor|].
      split; [by constructor|done].
Qed.

(** *** Read failures do not show *)

Lemma filenames_of_heal entries :
  filenames_of (heal_entries entries) =
  map (λ e, (e.1, without_failure e.2)) (filenames_of entries).
Proof.
  induction entries as [|[name [g|readable es]] rest IH]; simpl;
    [done|by f_equal|done].
Qed.

Lemma walk_filenames_heal root filenames st :
  walk_filenames W rx session_root root
    (map (λ e, (e.1, without_failure e.2)) filenames) st =
  walk_filenames W rx session_root root filenames st.
Proof.
  revert st. induction filenames as [|[name f] rest IH]; intros st; [done|].
  simpl. destruct (cap_reached st); [done|].
  rewrite process_file_heal.
  destruct (process_file _ _ _ _ _ _) as [[] st']; [apply IH|done].
Qed.

Lemma listdir_loop_heal secure_path items st :
  listdir_loop W rx session_root secure_path (heal_entries items) st =
  listdir_loop W rx session_root secure_path items st.
Proof.
  revert st. induction items as [|[item [f|readable es]] rest IH];
    intros st; [done| |apply IH].
  simpl. rewrite process_file_heal.
  destruct (process_file _ _ _ _ _ _) as [[] st']; [apply IH|done].
Qed.

Lemma heal_dir readable entries :
  heal (Dir readable entries) = Dir readable (heal_entries entries).
Proof. reflexivity. Qed.

Lemma walk_heal n top st :
  walk W rx session_root top (heal n) st = walk W rx session_root top n st.
Proof.
  revert top st.
  induction n as [g|readable entries IH] using node_ind_entries;
    intros top st; [done|].
  rewrite heal_dir. destruct readable; [|done].
  rewrite !walk_dir_unfold. cbv zeta.
  destruct (cap_reached (log (EvWalk top) st)); [done|].
  rewrite filenames_of_heal, walk_filenames_heal.
  generalize (walk_filenames W rx session_root top (filenames_of entries)
                (log (EvWalk top) st)).
  induction IH as [|[d sub] rest Hsub _ IHrest]; intros st1; [done|].
  change (heal_entries ((d, sub) :: rest))
    with ((d, heal sub) :: heal_entries rest).
  rewrite !walk_dirs_cons. simpl in Hsub. rewrite Hsub.
  destruct sub as [g|readable es]; [apply IHrest|]. rewrite heal_dir.
  destruct (bool_decide (d ∈ IGNORED_DIRS)); [apply IHrest|].
  destruct (walk _ _ _ _ _ _) as [[] st']; [done|apply IHrest].
Qed.

(** *** The records of a candidate *)

Lemma elem_of_hits m dp k lines :
  m ∈ hits rx dp k lines →
  ∃ i line, lines !! i = Some line ∧ re_search rx line = true
            ∧ m = record_of dp (k + i) line.
Proof.
  revert k. induction lines as [|line rest IH]; intros k; simpl.
  - by intros ?%elem_of_nil.
  - intros [Hin|Hin]%elem_of_app.
    + destruct (re_search rx line) eqn:Hre; [|by apply elem_of_nil in Hin].
      apply list_elem_of_singleton in Hin as ->.
      exists 0, line. by rewrite Nat.add_0_r.
    + destruct (IH _ Hin) as (i & l & Hi & Hre & ->).
      exists (S i), l. by rewrite Nat.add_succ_r.
Qed.

Lemma hits_length dp k lines :
  length (hits rx dp k lines) = length (List.filter (re_search rx) lines).
Proof.
  revert k. induction lines as [|line rest IH]; intros k; [done|].
  simpl. rewrite length_app, IH. by destruct (re_search rx line).
Qed.

Lemma elem_of_records m c :
  m ∈ records W rx session_root c →
  binary_ext c.1 = false
  ∧ ∃ i line, file_lines c.2 !! i = Some line ∧ re_search rx line = true
      ∧ m = record_of (display_path_of W session_root c.1) (S i) line.
Proof.
  unfold records. destruct (binary_ext c.1); [by intros ?%elem_of_nil|].
  intros Hin. split; [done|]. by apply elem_of_hits in Hin.
Qed.

Lemma elem_of_all_records m cands :
  m ∈ flat_map (records W rx session_root) cands →
  ∃ p f i line,
    (p, f) ∈ cands ∧ binary_ext p = false
    ∧ file_lines f !! i = Some line ∧ re_search rx line = true
    ∧ m = record_of (display_path_of W session_root p) (S i) line.
Proof.
  rewrite list_elem_of_In, in_flat_map.
  intros ([p f] & Hc%list_elem_of_In & Hm%list_elem_of_In).
  apply elem_of_records in Hm as (Hb & i & line & ? & ? & ?).
  by exists p, f, i, line.
Qed.

(** *** The search logic *)

Lemma search_logic_cases secure_path recursive st :
  match search_logic W rx session_root secure_path recursive st with
  | (inr _, st') => accounts (candidates W secure_path recursive) st st'
  | (inl e, st') =>
      recursive = false
      ∧ accounts [] st st'
      ∧ ((lookup_path W secure_path = None ∧ e = FileNotFoundError)
         ∨ (∃ entries, lookup_path W secure_path = Some (Dir false entries)
                       ∧ e = PermissionError))
  end.
Proof.
  unfold search_logic, candidates.
  assert (accounts [] st (log (EvIsFile secure_path) st)) as Hlog
    by (by apply accounts_log).
  set (st1 := log (EvIsFile secure_path) st) in *.
  assert (accounts [] st (log (EvListdir secure_path) st1)) as Hlist
    by (by apply (accounts_trans [] [] st st1); [|apply accounts_log]).
  destruct (lookup_path W secure_path) as [[f|readable entries]|].
  - apply (accounts_trans [] [_] st st1 _ Hlog), process_file_accounts.
  - destruct recursive.
    + destruct (walk_accounts (Dir readable entries) secure_path st1)
        as [Hacc _].
      destruct readable.
      * by apply (accounts_trans [] _ st st1).
      * destruct (walk_leaf_unfold secure_path (Dir false entries) st1)
          as [Heq Hnil]; [done|].
        rewrite Hnil in Hacc. by apply (accounts_trans [] [] st st1).
    + destruct readable.
      * apply (accounts_trans [] _ st st1 _ Hlog).
        apply (accounts_trans [] _ st1 (log (EvListdir secure_path) st1));
          [by apply accounts_log|apply listdir_loop_accounts].
      * split; [done|]. split; [done|]. right. by exists entries.
  - destruct recursive.
    + apply (accounts_trans [] [] st st1 _ Hlog). by apply accounts_log.
    + split; [done|]. split; [done|]. by left.
Qed.

Lemma search_logic_heal secure_path recursive st :
  search_logic (healed W) rx session_root secure_path recursive st =
  search_logic W rx session_root secure_path recursive st.
Proof.
  unfold search_logic.
  change (lookup_path (healed W) secure_path)
    with (heal <$> lookup_path W secure_path).
  change (process_file (healed W)) with (process_file W).
  change (walk (healed W)) with (walk W).
  change (listdir_loop (healed W)) with (listdir_loop W).
  destruct (lookup_path W secure_path) as [[f|readable entries]|]; simpl;
    [by rewrite process_file_heal| |done].
  destruct recursive.
  - by rewrite <- (walk_heal (Dir readable entries)).
  - destruct readable; [|done].
    by rewrite <- (listdir_loop_heal _ entries).
Qed.

End Facts.

(** *** The two envelopes *)

Lemma success_envelope_success pattern path recursive ms :
  success_envelope pattern path recursive ms !! "success" = Some (PyBool true).
Proof. unfold success_envelope. by case_match. Qed.

Lemma success_envelope_matches pattern path recursive ms :
  success_envelope pattern path recursive ms !! "matches" = Some (PyList ms).
Proof. unfold success_envelope. by case_match. Qed.

Lemma success_envelope_total pattern path recursive ms :
  success_envelope pattern path recursive ms !! "total_matches"
  = Some (PyInt (length ms)).
Proof. unfold success_envelope. by case_match. Qed.

Lemma success_envelope_error pattern path recursive ms :
  success_envelope pattern path recursive ms !! "error" = None.
Proof. unfold success_envelope. by case_match. Qed.

Lemma success_envelope_warning pattern path recursive ms :
  success_envelope pattern path recursive ms !! "warning" =
  if MAX_MATCHES <=? length ms
  then Some (PyStr "Stopped early after reaching MAX_MATCHES=1000")
  else None.
Proof. unfold success_envelope. by case_match. Qed.

Lemma error_envelope_lookup path e k :
  error_envelope path e !! k =
  if decide (k = "error")
  then Some (PyStr (match e with
                    | FileNotFoundError =>
                        "Directory or file not found: " +:+ path
                    | PermissionError =>
                        "Permission denied accessing: " +:+ path
                    | Exception str =>
                        "Failed to perform grep search: " +:+ str
                    end))
  else None.
Proof.
  destruct e; simpl; case_decide; subst;
    by rewrite ?lookup_singleton_eq, ?lookup_singleton_ne.
Qed.

(** *** Every way a request can end *)

Section Outcomes.

Context `{RE : Regex}.
Variable W : World.
Variables path pattern workspace_id agent_id session_id : string.
Variable recursive : bool.

Local Abbreviation run :=
  (grep_search_run W path pattern workspace_id agent_id session_id
                   recursive).
Local Abbreviation session_root :=
  (session_root_of W workspace_id agent_id session_id).

Lemma run_invalid_pattern msg :
  re_compile pattern = inl msg →
  run = ({[ "error" := PyStr ("Invalid regex pattern: " +:+ msg) ]}, []).
Proof. intros H. unfold grep_search_run. by rewrite H. Qed.

Lemma run_resolver_failure rx e :
  re_compile pattern = inr rx →
  get_secure_path W path workspace_id agent_id session_id = inl e →
  run = (error_envelope path e,
         [EvResolve path workspace_id agent_id session_id]).
Proof. intros H1 H2. unfold grep_search_run. by rewrite H1, H2. Qed.

(** After a successful resolution the request ends in one of two ways:
    the listing of the non-recursive branch fails, or the search runs to
    its end over the candidates. *)
Lemma run_resolved rx secure_path :
  re_compile pattern = inr rx →
  get_secure_path W path workspace_id agent_id session_id
    = inr secure_path →
  (∃ e tr,
      run = (error_envelope path e, tr)
      ∧ recursive = false
      ∧ (∀ p, EvOpen p ∉ tr)
      ∧ ((lookup_path W secure_path = None ∧ e = FileNotFoundError)
         ∨ (∃ entries, lookup_path W secure_path = Some (Dir false entries)
                       ∧ e = PermissionError)))
  ∨ (∃ ms tr,
      run = (success_envelope pattern path recursive ms, tr)
      ∧ ms = take MAX_MATCHES
               (flat_map (records W rx session_root)
                         (candidates W secure_path recursive))
      ∧ ∀ p, EvOpen p ∈ tr →
          binary_ext p = false
          ∧ ∃ f, (p, f) ∈ candidates W secure_path recursive).
Proof.
  intros H1 H2. unfold grep_search_run. rewrite H1, H2.
  set (st0 := {| matches := [];
                 trace := [EvResolve path workspace_id agent_id
                                     session_id] |}).
  pose proof (search_logic_cases W rx session_root secure_path recursive st0)
    as Hcases.
  destruct (search_logic _ _ _ _ _ _) as [[e|[]] st'].
  - left. exists e, (trace st').
    destruct Hcases as (Hrec & [_ Ho] & Hwhy). repeat (split; [done|]).
    split; [|done]. intros p Hp.
    destruct (Ho p Hp) as [Hin|(_ & f & Hin)];
      [by apply list_elem_of_singleton in Hin|by apply elem_of_nil in Hin].
  - right. destruct Hcases as [Hm Ho].
    exists (matches st'), (trace st'). split; [done|].
    split; [by rewrite Hm, absorb_empty|].
    intros p Hp. destruct (Ho p Hp) as [Hin|?]; [|done].
    by apply list_elem_of_singleton in Hin.
Qed.

(** The two facts the statements below are read off: what the result
    holds, and what has been opened. *)
Lemma run_matches ms :
  run.1 !! "matches" = Some (PyList ms) →
  ∃ rx secure_path,
    re_compile pattern = inr rx
    ∧ get_secure_path W path workspace_id agent_id session_id
      = inr secure_path
    ∧ ms = take MAX_MATCHES
             (flat_map (records W rx session_root)
                       (candidates W secure_path recursive)).
Proof.
  intros Hms.
  destruct (re_compile pattern) as [msg|rx] eqn:Hre.
  { by rewrite (run_invalid_pattern msg Hre) in Hms. }
  destruct (get_secure_path W path workspace_id agent_id session_id)
    as [e|secure_path] eqn:Hpath.
  { rewrite (run_resolver_failure rx e Hre Hpath) in Hms.
    simpl in Hms. by rewrite error_envelope_lookup in Hms. }
  exists rx, secure_path. do 2 (split; [done|]).
  destruct (run_resolved rx secure_path Hre Hpath)
    as [(e & tr & Hrun & _)|(ms' & tr & Hrun & Hms' & _)];
    rewrite Hrun in Hms; simpl in Hms.
  - by rewrite error_envelope_lookup in Hms.
  - rewrite success_envelope_matches in Hms. congruence.
Qed.

Lemma run_opens p :
  EvOpen p ∈ run.2 →
  ∃ rx secure_path f,
    re_compile pattern = inr rx
    ∧ get_secure_path W path workspace_id agent_id session_id
      = inr secure_path
    ∧ binary_ext p = false
    ∧ (p, f) ∈ candidates W secure_path recursive.
Proof.
  intros Hopen.
  destruct (re_compile pattern) as [msg|rx] eqn:Hre.
  { rewrite (run_invalid_pattern msg Hre) in Hopen.
    by apply elem_of_nil in Hopen. }
  destruct (get_secure_path W path workspace_id agent_id session_id)
    as [e|secure_path] eqn:Hpath.
  { rewrite (run_resolver_failure rx e Hre Hpath) in Hopen.
    by apply list_elem_of_singleton in Hopen. }
  destruct (run_resolved rx secure_path Hre Hpath)
    as [(e & tr & Hrun & _ & Hnone & _)|(ms' & tr & Hrun & _ & Ho)];
    rewrite Hrun in Hopen; simpl in Hopen.
  - by destruct (Hnone p).
  - destruct (Ho p Hopen) as (Hb & f & Hf). by exists rx, secure_path, f.
Qed.

End Outcomes.

(** ** The properties of the result *)

Section Claims.

Context `{RE : Regex}.
Variable W : World.
Variables path pattern workspace_id agent_id session_id : string.
Variable recursive : bool.

(** C1.  A success envelope carries at most 1000 records, and its
    [total_matches] is the length of its [matches], however many lines
    of the tree match the pattern. *)
Theorem total_matches_capped :
  grep_search W path pattern workspace_id agent_id session_id recursive
    !! "success" = Some (PyBool true) →
  ∃ ms,
    grep_search W path pattern workspace_id agent_id session_id recursive
      !! "matches" = Some (PyList ms)
    ∧ grep_search W path pattern workspace_id agent_id session_id recursive
        !! "total_matches" = Some (PyInt (length ms))
    ∧ length ms ≤ 1000.
Proof.
  unfold grep_search. intros Hsuccess.
  destruct (re_compile pattern) as [msg|rx] eqn:Hre.
  { by rewrite (run_invalid_pattern W _ _ _ _ _ recursive msg Hre)
      in Hsuccess. }
  destruct (get_secure_path W path workspace_id agent_id session_id)
    as [e|secure_path] eqn:Hpath.
  { rewrite (run_resolver_failure W _ _ _ _ _ recursive rx e Hre Hpath)
      in Hsuccess.
    simpl in Hsuccess. by rewrite error_envelope_lookup in Hsuccess. }
  destruct (run_resolved W _ _ _ _ _ recursive rx secure_path Hre Hpath)
    as [(e & tr & Hrun & _)|(ms & tr & Hrun & Hms & _)];
    rewrite Hrun in *; simpl in *.
  { by rewrite error_envelope_lookup in Hsuccess. }
  exists ms. rewrite success_envelope_matches, success_envelope_total.
  split; [done|]. split; [done|].
  rewrite Hms, length_take. change 1000 with MAX_MATCHES. lia.
Qed.

(** A pattern on which [re.compile] raises [re.error] ends the request
    at once: the dict holds the one key [error], whose message names the
    invalid pattern, and the log of calls is empty, so neither the
    resolver nor the filesystem has been touched. *)
Theorem invalid_pattern_fails_fast msg :
  re_compile pattern = inl msg →
  grep_search_run W path pattern workspace_id agent_id session_id recursive
  = ({[ "error" := PyStr ("Invalid regex pattern: " +:+ msg) ]}, []).
Proof. apply run_invalid_pattern. Qed.

(** A call returns, and returns the dict of [grep_search], when
    [re.compile] raises nothing but [re.error]. *)
Lemma call_returns_grep_search :
  re_compile_raises pattern = None →
  grep_search_call W path pattern workspace_id agent_id session_id recursive
  = (Returns (grep_search W path pattern workspace_id agent_id session_id
                          recursive),
     snd (grep_search_run W path pattern workspace_id agent_id session_id
                          recursive)).
Proof. intros H. unfold grep_search_call. by rewrite H. Qed.

(** An exception of [re.compile] that is not an [re.error] is caught
    nowhere: it leaves the function, and no dict is returned. *)
Lemma uncaught_compile_error_escapes e :
  re_compile_raises pattern = Some e →
  grep_search_call W path pattern workspace_id agent_id session_id recursive
  = (Raises e, []).
Proof. intros H. unfold grep_search_call. by rewrite H. Qed.

(** However the compilation fails, the call ends without a call on the
    resolver or on the filesystem. *)
Lemma compile_failure_makes_no_call :
  (∃ e, re_compile_raises pattern = Some e)
  ∨ (∃ msg, re_compile pattern = inl msg) →
  snd (grep_search_call W path pattern workspace_id agent_id session_id
                        recursive) = [].
Proof.
  intros Hfail. unfold grep_search_call.
  destruct (re_compile_raises pattern) as [e|] eqn:Hraise; [done|].
  destruct Hfail as [[e He]|[msg Hmsg]]; [done|].
  simpl. by rewrite (run_invalid_pattern W _ _ _ _ _ recursive msg Hmsg).
Qed.

(** C2, amended.  For a single-file target whose extension is not
    binary: with 1000 or more matching lines the result has exactly 1000
    matches and the warning; with fewer than 1000 it has them all and no
    warning. *)
Theorem single_file_cap rx secure_path f :
  re_compile pattern = inr rx →
  get_secure_path W path workspace_id agent_id session_id = inr secure_path →
  lookup_path W secure_path = Some (File f) →
  binary_ext secure_path = false →
  (1000 ≤ length (matching_lines rx f) →
     grep_search W path pattern workspace_id agent_id session_id recursive
       !! "total_matches" = Some (PyInt 1000)
     ∧ grep_search W path pattern workspace_id agent_id session_id recursive
         !! "warning"
       = Some (PyStr "Stopped early after reaching MAX_MATCHES=1000"))
  ∧ (length (matching_lines rx f) < 1000 →
     grep_search W path pattern workspace_id agent_id session_id recursive
       !! "total_matches" = Some (PyInt (length (matching_lines rx f)))
     ∧ grep_search W path pattern workspace_id agent_id session_id recursive
         !! "warning" = None).
Proof.
  intros Hre Hpath Hfile Hext. unfold grep_search.
  destruct (run_resolved W _ _ _ _ _ recursive rx secure_path Hre Hpath)
    as [(e & tr & Hrun & _ & _ & [[Hno _]|(es & Hno & _)])
       |(ms & tr & Hrun & Hms & _)];
    [congruence..|].
  rewrite Hrun. simpl.
  rewrite success_envelope_total, success_envelope_warning.
  assert (length ms = min MAX_MATCHES (length (matching_lines rx f)))
    as Hlen.
  { rewrite Hms. unfold candidates. rewrite Hfile. simpl.
    rewrite app_nil_r, length_take. unfold records. simpl.
    by rewrite Hext, hits_length. }
  rewrite Hlen. change 1000 with MAX_MATCHES. split; intros Hn.
  - rewrite Nat.min_l by done.
    by destruct (Nat.leb_spec MAX_MATCHES MAX_MATCHES); [|lia].
  - rewrite Nat.min_r by lia.
    by destruct (Nat.leb_spec MAX_MATCHES (length (matching_lines rx f)));
      [lia|].
Qed.

(** C10.  A single-file target with a binary extension is not an error:
    the result is the success envelope with no match, a total of 0 and
    no warning, and the file has not been opened. *)
Theorem binary_single_file_succeeds rx secure_path f :
  re_compile pattern = inr rx →
  get_secure_path W path workspace_id agent_id session_id = inr secure_path →
  lookup_path W secure_path = Some (File f) →
  binary_ext secure_path = true →
  grep_search W path pattern workspace_id agent_id session_id recursive
    !! "success" = Some (PyBool true)
  ∧ grep_search W path pattern workspace_id agent_id session_id recursive
      !! "matches" = Some (PyList [])
  ∧ grep_search W path pattern workspace_id agent_id session_id recursive
      !! "total_matches" = Some (PyInt 0)
  ∧ grep_search W path pattern workspace_id agent_id session_id recursive
      !! "warning" = None
  ∧ grep_search W path pattern workspace_id agent_id session_id recursive
      !! "error" = None
  ∧ EvOpen secure_path
    ∉ (grep_search_run W path pattern workspace_id agent_id session_id
                       recursive).2.
Proof.
  intros Hre Hpath Hfile Hext. unfold grep_search.
  destruct (run_resolved W _ _ _ _ _ recursive rx secure_path Hre Hpath)
    as [(e & tr & Hrun & _ & _ & [[Hno _]|(es & Hno & _)])
       |(ms & tr & Hrun & Hms & Hopen)];
    [congruence..|].
  rewrite Hrun. simpl.
  assert (ms = []) as ->.
  { rewrite Hms. unfold candidates. rewrite Hfile. simpl.
    unfold records. simpl. by rewrite Hext. }
  rewrite success_envelope_success, success_envelope_matches,
    success_envelope_total, success_envelope_warning,
    success_envelope_error.
  repeat (split; [done|]).
  intros [Hb _]%Hopen. congruence.
Qed.

(** C5.  A file whose extension, lower-cased, is in the binary set is
    skipped before it is opened: [process_file] returns at once and leaves
    [matches] and the log as they were; whatever the mode, no such file is
    ever opened, and every record of the result belongs to a candidate
    whose extension is not binary. *)
Theorem binary_extension_never_searched :
  (∀ rx root p f st,
     binary_ext p = true → process_file W rx root p f st = (RetNone, st))
  ∧ (∀ p,
       binary_ext p = true →
       EvOpen p
       ∉ (grep_search_run W path pattern workspace_id agent_id session_id
                          recursive).2)
  ∧ (∀ ms m,
       grep_search W path pattern workspace_id agent_id session_id recursive
         !! "matches" = Some (PyList ms) →
       m ∈ ms →
       ∃ rx secure_path p f i line,
         re_compile pattern = inr rx
         ∧ get_secure_path W path workspace_id agent_id session_id
           = inr secure_path
         ∧ (p, f) ∈ candidates W secure_path recursive
         ∧ binary_ext p = false
         ∧ file_lines f !! i = Some line
         ∧ re_search rx line = true
         ∧ m = record_of
                 (display_path_of W
                    (session_root_of W workspace_id agent_id session_id) p)
                 (S i) line).
Proof.
  split; [|split].
  - intros rx root p f st Hext. unfold process_file. by rewrite Hext.
  - intros p Hext (rx & secure_path & f & _ & _ & Hb & _)%run_opens.
    congruence.
  - intros ms m (rx & secure_path & Hre & Hpath & ->)%run_matches
      Hm%subseteq_take.
    apply elem_of_all_records in Hm as (p & f & i & line & ?).
    by exists rx, secure_path, p, f, i, line.
Qed.

(** C9, amended.  The [file] of every record is the path of its file
    relative to the session root [WORKSPACES_DIR/workspace/agent/session]
    (not to the resolved target of the search) whenever [relpath] can
    compute it, and the full path otherwise; [line_number] counts the
    lines of the file from 1; and [line_content] is the matching line
    without the whitespace at its two ends, whitespace being what
    [str.isspace] says, no-break and other Unicode spaces included: it
    neither begins nor ends with a whitespace character, and whitespace
    characters are all that was taken away. *)
Theorem display_path_relative_to_session_root ms m :
  grep_search W path pattern workspace_id agent_id session_id recursive
    !! "matches" = Some (PyList ms) →
  m ∈ ms →
  ∃ rx secure_path full_path f i line,
    re_compile pattern = inr rx
    ∧ get_secure_path W path workspace_id agent_id session_id
      = inr secure_path
    ∧ (full_path, f) ∈ candidates W secure_path recursive
    ∧ file_lines f !! i = Some line
    ∧ re_search rx line = true
    ∧ file m
      = match relpath W full_path
                (session_root_of W workspace_id agent_id session_id) with
        | Some rel => rel
        | None => full_path
        end
    ∧ line_number m = S i
    ∧ line_content m = Py.strip line
    ∧ (∃ pre post,
         line = pre +:+ line_content m +:+ post
         ∧ Py.blank pre = true ∧ Py.blank post = true)
    ∧ Py.space_prefix (line_content m) = None
    ∧ Py.ends_with_space (line_content m) = false.
Proof.
  intros (rx & secure_path & Hre & Hpath & ->)%run_matches Hm%subseteq_take.
  apply elem_of_all_records in Hm
    as (p & f & i & line & Hc & _ & Hline & Hsearch & ->).
  exists rx, secure_path, p, f, i, line. do 8 (split; [done|]). simpl.
  destruct (strip_spec line) as (pre & post & ? & ? & ? & ? & ?).
  split; [by exists pre, post|done].
Qed.

(** C7.  Read failures of single files never show in the outcome.  The
    envelope and the log of calls are those of the same request on the
    tree in which every file simply ends where its read fails; a file
    that fails on [open] is passed over with [None], so the loops go on;
    and once the pattern has compiled and the path is resolved, a request
    that is recursive or aimed at a file or at a listable directory ends
    in the success envelope holding the records of all candidates up to
    the cap. *)
Theorem read_failures_are_absorbed :
  grep_search_run (healed W) path pattern workspace_id agent_id session_id
                  recursive
  = grep_search_run W path pattern workspace_id agent_id session_id recursive
  ∧ (∀ rx root p e st,
       process_file W rx root p {| file_lines := []; file_error := Some e |} st
       = (RetNone, if binary_ext p then st else log (EvOpen p) st))
  ∧ (∀ rx secure_path,
       re_compile pattern = inr rx →
       get_secure_path W path workspace_id agent_id session_id
         = inr secure_path →
       recursive = true
       ∨ (∃ f, lookup_path W secure_path = Some (File f))
       ∨ (∃ entries, lookup_path W secure_path = Some (Dir true entries)) →
       grep_search W path pattern workspace_id agent_id session_id recursive
         !! "error" = None
       ∧ grep_search W path pattern workspace_id agent_id session_id
                     recursive
           !! "success" = Some (PyBool true)
       ∧ grep_search W path pattern workspace_id agent_id session_id
                     recursive
           !! "matches"
         = Some (PyList
                   (take MAX_MATCHES
                      (flat_map
                         (records W rx
                            (session_root_of W workspace_id agent_id
                                             session_id))
                         (candidates W secure_path recursive))))).
Proof.
  split; [|split].
  - unfold grep_search_run.
    change (get_secure_path (healed W)) with (get_secure_path W).
    change (session_root_of (healed W)) with (session_root_of W).
    destruct (re_compile pattern) as [msg|rx]; [done|].
    destruct (get_secure_path W path workspace_id agent_id session_id)
      as [e|secure_path]; [done|].
    by rewrite search_logic_heal.
  - intros rx root p e st. unfold process_file.
    destruct (binary_ext p); [done|]. by destruct e.
  - intros rx secure_path Hre Hpath Hmode. unfold grep_search.
    destruct (run_resolved W _ _ _ _ _ recursive rx secure_path Hre Hpath)
      as [(e & tr & Hrun & Hrec & _ & Hwhy)|(ms & tr & Hrun & Hms & _)].
    + destruct Hmode as [?|[[f Hf]|[es Hes]]],
        Hwhy as [[Hno _]|(es' & Hno & _)]; congruence.
    + rewrite Hrun. simpl.
      by rewrite success_envelope_error, success_envelope_success,
        success_envelope_matches, Hms.
Qed.

End Claims.

Section Modes.

Context `{RE : Regex}.
Variable W : World.
Variables path pattern workspace_id agent_id session_id : string.

Local Abbreviation run_with recursive :=
  (grep_search_run W path pattern workspace_id agent_id session_id
                   recursive).

(** C6.  Without [recursive], a directory target has only its immediate
    child files scanned: every file that is opened, and every file a record
    comes from, is an entry of the target itself, so nothing that lies in a
    subdirectory can appear in [matches]. *)
Theorem non_recursive_scans_children_only rx secure_path readable entries :
  re_compile pattern = inr rx →
  get_secure_path W path workspace_id agent_id session_id = inr secure_path →
  lookup_path W secure_path = Some (Dir readable entries) →
  (∀ p,
     EvOpen p
     ∈ (grep_search_run W path pattern workspace_id agent_id session_id
                        false).2 →
     ∃ name f, (name, File f) ∈ entries ∧ p = Py.join secure_path name)
  ∧ (∀ ms m,
       grep_search W path pattern workspace_id agent_id session_id false
         !! "matches" = Some (PyList ms) →
       m ∈ ms →
       ∃ name f i line,
         (name, File f) ∈ entries
         ∧ file_lines f !! i = Some line
         ∧ re_search rx line = true
         ∧ m = record_of
                 (display_path_of W
                    (session_root_of W workspace_id agent_id session_id)
                    (Py.join secure_path name))
                 (S i) line).
Proof.
  intros Hre Hpath Hdir.
  assert (∀ p f, (p, f) ∈ candidates W secure_path false →
                 ∃ name, (name, File f) ∈ entries
                         ∧ p = Py.join secure_path name) as Hchild.
  { intros p f. unfold candidates. rewrite Hdir.
    destruct readable; [apply elem_of_in_dir|by intros ?%elem_of_nil]. }
  split.
  - intros p (rx' & sp & f & _ & Hsp & _ & Hc)%run_opens.
    assert (sp = secure_path) as -> by congruence.
    destruct (Hchild p f Hc) as (name & ? & ?). by exists name, f.
  - intros ms m (rx' & sp & Hrx & Hsp & ->)%run_matches Hm%subseteq_take.
    assert (sp = secure_path) as -> by congruence.
    assert (rx' = rx) as -> by congruence.
    apply elem_of_all_records in Hm
      as (p & f & i & line & Hc & _ & Hline & Hsearch & ->).
    destruct (Hchild p f Hc) as (name & ? & ->). by exists name, f, i, line.
Qed.

(** C4, amended.  With [recursive] on a directory target, every file that
    is opened, and every file a record comes from, is reached from the
    target through subdirectories none of whose names is in
    [IGNORED_DIRS]: nothing below an ignored subdirectory of the target is
    searched.  (The target itself is walked whatever it is called.) *)
Theorem recursive_prunes_ignored_subdirectories
    rx secure_path readable entries :
  re_compile pattern = inr rx →
  get_secure_path W path workspace_id agent_id session_id = inr secure_path →
  lookup_path W secure_path = Some (Dir readable entries) →
  (∀ p,
     EvOpen p
     ∈ (grep_search_run W path pattern workspace_id agent_id session_id
                        true).2 →
     ∃ dirs name f,
       located (Dir readable entries) (dirs ++ [name]) f
       ∧ Forall (λ d, d ∉ IGNORED_DIRS) dirs
       ∧ p = Py.join_all secure_path (dirs ++ [name]))
  ∧ (∀ ms m,
       grep_search W path pattern workspace_id agent_id session_id true
         !! "matches" = Some (PyList ms) →
       m ∈ ms →
       ∃ dirs name f i line,
         located (Dir readable entries) (dirs ++ [name]) f
         ∧ Forall (λ d, d ∉ IGNORED_DIRS) dirs
         ∧ file_lines f !! i = Some line
         ∧ re_search rx line = true
         ∧ m = record_of
                 (display_path_of W
                    (session_root_of W workspace_id agent_id session_id)
                    (Py.join_all secure_path (dirs ++ [name])))
                 (S i) line).
Proof.
  intros Hre Hpath Hdir.
  assert (∀ p f, (p, f) ∈ candidates W secure_path true →
                 ∃ dirs name,
                   located (Dir readable entries) (dirs ++ [name]) f
                   ∧ Forall (λ d, d ∉ IGNORED_DIRS) dirs
                   ∧ p = Py.join_all secure_path (dirs ++ [name]))
    as Hbelow.
  { intros p f. unfold candidates. rewrite Hdir.
    destruct readable; [apply walk_files_located|by intros ?%elem_of_nil]. }
  split.
  - intros p (rx' & sp & f & _ & Hsp & _ & Hc)%run_opens.
    assert (sp = secure_path) as -> by congruence.
    destruct (Hbelow p f Hc) as (dirs & name & ? & ? & ?).
    by exists dirs, name, f.
  - intros ms m (rx' & sp & Hrx & Hsp & ->)%run_matches Hm%subseteq_take.
    assert (sp = secure_path) as -> by congruence.
    assert (rx' = rx) as -> by congruence.
    apply elem_of_all_records in Hm
      as (p & f & i & line & Hc & _ & Hline & Hsearch & ->).
    destruct (Hbelow p f Hc) as (dirs & name & ? & ? & ->).
    by exists dirs, name, f, i, line.
Qed.

(** The shapes of the result (first half of C8): the dict either has the
    single key [error], or it has [success = True] with the five other
    keys of the success envelope and possibly [warning], and no [error]. *)
Lemma result_shape recursive :
  dom (run_with recursive).1 = {[ "error" ]}
  ∨ ((run_with recursive).1 !! "success" = Some (PyBool true)
     ∧ (dom (run_with recursive).1
        = {[ "success"; "pattern"; "path"; "recursive";
             "matches"; "total_matches" ]}
        ∨ dom (run_with recursive).1
          = {[ "success"; "pattern"; "path"; "recursive";
               "matches"; "total_matches"; "warning" ]})).
Proof.
  assert (∀ e, dom (error_envelope path e) = ({[ "error" ]} : gset string))
    as Herr by (intros []; simpl; apply dom_singleton_L).
  destruct (re_compile pattern) as [msg|rx] eqn:Hre.
  { rewrite (run_invalid_pattern W _ _ _ _ _ recursive msg Hre).
    left. apply dom_singleton_L. }
  destruct (get_secure_path W path workspace_id agent_id session_id)
    as [e|secure_path] eqn:Hpath.
  { rewrite (run_resolver_failure W _ _ _ _ _ recursive rx e Hre Hpath).
    left. apply Herr. }
  destruct (run_resolved W _ _ _ _ _ recursive rx secure_path Hre Hpath)
    as [(e & tr & -> & _)|(ms & tr & -> & _)]; [left; apply Herr|right].
  simpl. split; [apply success_envelope_success|].
  unfold success_envelope.
  destruct (MAX_MATCHES <=? length ms); [right|left];
    rewrite !dom_insert_L, dom_empty_L; set_solver.
Qed.

(** Where a missing or unlistable target is reported (second half of C8):
    by the resolver, or by the listing of the non-recursive branch. *)
Lemma missing_target_non_recursive rx secure_path :
  re_compile pattern = inr rx →
  get_secure_path W path workspace_id agent_id session_id = inr secure_path →
  lookup_path W secure_path = None
  ∨ (∃ entries, lookup_path W secure_path = Some (Dir false entries)) →
  dom (run_with false).1 = {[ "error" ]}.
Proof.
  intros Hre Hpath Hmissing.
  unfold grep_search_run, search_logic. rewrite Hre, Hpath.
  destruct Hmissing as [->|[es ->]]; simpl; apply dom_singleton_L.
Qed.

(** In the recursive branch nothing reports it: [os.walk] swallows the
    failure to list its top directory, and the request succeeds with no
    match. *)
Lemma missing_target_recursive rx secure_path :
  re_compile pattern = inr rx →
  get_secure_path W path workspace_id agent_id session_id = inr secure_path →
  lookup_path W secure_path = None
  ∨ (∃ entries, lookup_path W secure_path = Some (Dir false entries)) →
  (run_with true).1 = success_envelope pattern path true [].
Proof.
  intros Hre Hpath Hmissing.
  unfold grep_search_run, search_logic. rewrite Hre, Hpath.
  by destruct Hmissing as [->|[es ->]].
Qed.

End Modes.

(** ** The function at work *)

Import Sample.

Example splitext_png : Py.splitext "/s/a/Icon.PNG" = ("/s/a/Icon", ".PNG").
Proof. reflexivity. Qed.

Example splitext_dotfile : Py.splitext "/s/a/.png" = ("/s/a/.png", EmptyString).
Proof. reflexivity. Qed.

Example splitext_dotted_dir :
  Py.splitext "/s/a.d/readme" = ("/s/a.d/readme", EmptyString).
Proof. reflexivity. Qed.

Example binary_ext_ignores_case : binary_ext "/s/a/Icon.PNG" = true.
Proof. reflexivity. Qed.

Example relpath_below :
  Py.relpath "/" "/ws/w/a/s/src/foo.txt" "/ws/w/a/s" = Some "src/foo.txt".
Proof. reflexivity. Qed.

Example relpath_elsewhere :
  Py.relpath "/" "/tmp/t/foo.txt" "/ws/w/a/s" = Some "../../../../tmp/t/foo.txt".
Proof. reflexivity. Qed.

(** The scenario of the spec with [notes.txt] and [icon.png]: one match,
    from [notes.txt]; the unreadable [locked.txt] is opened and passed
    over. *)
Example project_todo :
  grep_search_run project_world "proj" "TODO" "w" "a" "s" false =
  (success_envelope "TODO" "proj" false
     [ {| file := "proj/notes.txt"; line_number := 1;
          line_content := "TODO: fix" |} ],
   [ EvResolve "proj" "w" "a" "s";
     EvIsFile "/ws/w/a/s/proj";
     EvListdir "/ws/w/a/s/proj";
     EvIsFile "/ws/w/a/s/proj/notes.txt";
     EvOpen "/ws/w/a/s/proj/notes.txt";
     EvIsFile "/ws/w/a/s/proj/icon.png";
     EvIsFile "/ws/w/a/s/proj/locked.txt";
     EvOpen "/ws/w/a/s/proj/locked.txt";
     EvIsFile "/ws/w/a/s/proj/src";
     EvIsFile "/ws/w/a/s/proj/node_modules" ]).
Proof. by vm_compute. Qed.

(** The scenario with [src/foo.txt] and [node_modules/bar.txt]: the
    recursive search finds the first only, and the non-recursive one finds
    neither. *)
Example project_hello :
  grep_search project_world "proj" "hello" "w" "a" "s" true !! "matches"
  = Some (PyList [ {| file := "proj/src/foo.txt"; line_number := 1;
                      line_content := "hello world" |} ])
  ∧ grep_search project_world "proj" "hello" "w" "a" "s" false !! "matches"
    = Some (PyList []).
Proof. by vm_compute. Qed.

(** The test of the repository: 1100 matching lines give 1000 records and
    the warning. *)
Example max_matches_cap :
  grep_search (log_world 1100) "large.logs" "error" "w" "a" "s" false
    !! "total_matches" = Some (PyInt 1000)
  ∧ grep_search (log_world 1100) "large.logs" "error" "w" "a" "s" false
      !! "warning"
    = Some (PyStr "Stopped early after reaching MAX_MATCHES=1000").
Proof. by vm_compute. Qed.

(** *** Instances of the theorems *)

Lemma total_matches_capped_witness :
  grep_search project_world "proj" "TODO" "w" "a" "s" false !! "success"
  = Some (PyBool true)
  ∧ ∃ ms,
      grep_search project_world "proj" "TODO" "w" "a" "s" false !! "matches"
      = Some (PyList ms)
      ∧ grep_search project_world "proj" "TODO" "w" "a" "s" false
          !! "total_matches" = Some (PyInt (length ms))
      ∧ length ms ≤ 1000.
Proof.
  assert (grep_search project_world "proj" "TODO" "w" "a" "s" false
            !! "success" = Some (PyBool true)) as Hsuccess
    by (vm_compute; reflexivity).
  split; [exact Hsuccess|].
  exact (total_matches_capped (RE := engine) project_world "proj" "TODO" "w" "a" "s" false
           Hsuccess).
Defined.

Lemma invalid_pattern_fails_fast_witness :
  re_compile "(" = inl "missing ), unterminated subpattern"
  ∧ grep_search_run project_world "proj" "(" "w" "a" "s" true
    = ({[ "error" := PyStr ("Invalid regex pattern: "
                            +:+ "missing ), unterminated subpattern") ]}, []).
Proof.
  split; [reflexivity|].
  apply (invalid_pattern_fails_fast (RE := engine) project_world "proj" "(" "w" "a" "s" true).
  reflexivity.
Defined.

(** C2 as stated fails at the cap itself: a file with exactly 1000
    matching lines yields 1000 records and the warning. *)
Lemma exactly_1000_matching_lines_warn :
  lookup_path (log_world 1000) "/ws/w/a/s/large.logs" = Some (big_log 1000)
  ∧ length (matching_lines (RE := engine) "error"
              {| file_lines := repeat "error: crash happened" 1000;
                 file_error := None |}) = 1000
  ∧ grep_search (log_world 1000) "large.logs" "error" "w" "a" "s" false
      !! "total_matches" = Some (PyInt 1000)
  ∧ grep_search (log_world 1000) "large.logs" "error" "w" "a" "s" false
      !! "warning"
    = Some (PyStr "Stopped early after reaching MAX_MATCHES=1000").
Proof. by vm_compute. Qed.

Lemma single_file_cap_witness :
  length (matching_lines (RE := engine) "error"
            {| file_lines := repeat "error: crash happened" 3;
               file_error := None |}) < 1000
  ∧ grep_search (log_world 3) "large.logs" "error" "w" "a" "s" false
      !! "total_matches" = Some (PyInt 3)
  ∧ grep_search (log_world 3) "large.logs" "error" "w" "a" "s" false
      !! "warning" = None.
Proof.
  assert (length (matching_lines (RE := engine) "error"
            {| file_lines := repeat "error: crash happened" 3;
               file_error := None |}) < 1000) as Hfew
    by (vm_compute; lia).
  split; [exact Hfew|].
  refine (proj2 (single_file_cap (RE := engine) (log_world 3) "large.logs" "error"
                   "w" "a" "s" false "error" "/ws/w/a/s/large.logs"
                   {| file_lines := repeat "error: crash happened" 3;
                      file_error := None |} _ _ _ _) Hfew);
    reflexivity.
Defined.

Lemma binary_single_file_succeeds_witness :
  binary_ext "/ws/w/a/s/Icon.PNG" = true
  ∧ grep_search image_world "Icon.PNG" "TODO" "w" "a" "s" false !! "success"
    = Some (PyBool true)
  ∧ grep_search image_world "Icon.PNG" "TODO" "w" "a" "s" false !! "matches"
    = Some (PyList []).
Proof.
  split; [reflexivity|].
  destruct (binary_single_file_succeeds (RE := engine) image_world "Icon.PNG" "TODO"
              "w" "a" "s" false "TODO" "/ws/w/a/s/Icon.PNG"
              {| file_lines := ["TODO: fix"]; file_error := None |})
    as (Hs & Hm & _); [reflexivity..|].
  split; [exact Hs|exact Hm].
Defined.

Lemma binary_extension_never_searched_witness :
  binary_ext "/ws/w/a/s/proj/icon.png" = true
  ∧ EvOpen "/ws/w/a/s/proj/icon.png"
    ∉ (grep_search_run project_world "proj" "TODO" "w" "a" "s" false).2.
Proof.
  split; [reflexivity|].
  apply (proj1 (proj2 (binary_extension_never_searched (RE := engine) project_world
                         "proj" "TODO" "w" "a" "s" false))).
  reflexivity.
Defined.

Lemma non_recursive_scans_children_only_witness :
  EvOpen "/ws/w/a/s/proj/notes.txt"
    ∈ (grep_search_run project_world "proj" "hello" "w" "a" "s" false).2
  ∧ ∃ name f,
      (name, File f) ∈ [ ("notes.txt", text ["TODO: fix"; "done"]);
                         ("icon.png", text ["TODO: fix"]);
                         ("locked.txt", unreadable FilePermissionError);
                         ("src", Dir true
                                   [ ("foo.txt", text ["  hello world  "]) ]);
                         ("node_modules",
                          Dir true [ ("bar.txt", text ["hello world"]) ]) ]
      ∧ "/ws/w/a/s/proj/notes.txt" = Py.join "/ws/w/a/s/proj" name.
Proof.
  assert (EvOpen "/ws/w/a/s/proj/notes.txt"
            ∈ (grep_search_run project_world "proj" "hello" "w" "a" "s"
                               false).2) as Hopen
    by (vm_compute; do 4 right; left).
  split; [exact Hopen|].
  refine (proj1 (non_recursive_scans_children_only (RE := engine) project_world "proj"
                   "hello" "w" "a" "s" "hello" "/ws/w/a/s/proj" true _
                   _ _ _) _ Hopen);
    reflexivity.
Defined.

(** C4 as stated fails when the target of the search is itself a
    directory with an ignored name: its files are searched. *)
Lemma ignored_name_of_target_is_searched :
  "node_modules" ∈ IGNORED_DIRS
  ∧ get_secure_path vendored_world "node_modules" "w" "a" "s"
    = inr "/ws/w/a/s/node_modules"
  ∧ lookup_path vendored_world "/ws/w/a/s/node_modules"
    = Some (Dir true [ ("bar.txt", text ["hello world"]) ])
  ∧ grep_search_run vendored_world "node_modules" "hello" "w" "a" "s" true
    = (success_envelope "hello" "node_modules" true
         [ {| file := "node_modules/bar.txt"; line_number := 1;
              line_content := "hello world" |} ],
       [ EvResolve "node_modules" "w" "a" "s";
         EvIsFile "/ws/w/a/s/node_modules";
         EvWalk "/ws/w/a/s/node_modules";
         EvOpen "/ws/w/a/s/node_modules/bar.txt" ]).
Proof.
  split; [by apply (bool_decide_unpack _); vm_compute|]. by vm_compute.
Qed.

Lemma recursive_prunes_ignored_subdirectories_witness :
  EvOpen "/ws/w/a/s/proj/src/foo.txt"
    ∈ (grep_search_run project_world "proj" "hello" "w" "a" "s" true).2
  ∧ ∃ dirs name f,
      located project (dirs ++ [name]) f
      ∧ Forall (λ d, d ∉ IGNORED_DIRS) dirs
      ∧ "/ws/w/a/s/proj/src/foo.txt"
        = Py.join_all "/ws/w/a/s/proj" (dirs ++ [name]).
Proof.
  assert (EvOpen "/ws/w/a/s/proj/src/foo.txt"
            ∈ (grep_search_run project_world "proj" "hello" "w" "a" "s"
                               true).2) as Hopen
    by (vm_compute; do 6 right; left).
  split; [exact Hopen|].
  refine (proj1 (recursive_prunes_ignored_subdirectories (RE := engine) project_world "proj"
                   "hello" "w" "a" "s" "hello" "/ws/w/a/s/proj" true _
                   _ _ _) _ Hopen);
    reflexivity.
Defined.

Lemma read_failures_are_absorbed_witness :
  ("locked.txt", unreadable FilePermissionError)
    ∈ [ ("notes.txt", text ["TODO: fix"; "done"]);
        ("icon.png", text ["TODO: fix"]);
        ("locked.txt", unreadable FilePermissionError) ]
  ∧ grep_search project_world "proj" "TODO" "w" "a" "s" true !! "error" = None
  ∧ grep_search project_world "proj" "TODO" "w" "a" "s" true !! "success"
    = Some (PyBool true).
Proof.
  split; [do 2 right; left|].
  destruct (proj2 (proj2 (read_failures_are_absorbed (RE := engine)
                            project_world "proj" "TODO" "w" "a" "s" true))
              "TODO" "/ws/w/a/s/proj" eq_refl eq_refl (or_introl eq_refl))
    as (Herror & Hsuccess & _).
  split; [exact Herror|exact Hsuccess].
Defined.

(** C9 as stated fails for a target below the session root: the record of
    [src/foo.txt], found by a search of [src], is displayed relative to the
    session root, although its path relative to the resolved target is
    computable (it is [foo.txt]). *)
Lemma display_path_not_relative_to_target :
  get_secure_path src_world "src" "w" "a" "s" = inr "/ws/w/a/s/src"
  ∧ session_root_of src_world "w" "a" "s" = "/ws/w/a/s"
  ∧ grep_search src_world "src" "hello" "w" "a" "s" true !! "matches"
    = Some (PyList [ {| file := "src/foo.txt"; line_number := 1;
                        line_content := "hello world" |} ])
  ∧ relpath src_world "/ws/w/a/s/src/foo.txt" "/ws/w/a/s/src"
    = Some "foo.txt"
  ∧ relpath src_world "/ws/w/a/s/src/foo.txt" "/ws/w/a/s"
    = Some "src/foo.txt".
Proof. by vm_compute. Qed.

Lemma display_path_relative_to_session_root_witness :
  grep_search project_world "proj" "hello" "w" "a" "s" true !! "matches"
  = Some (PyList [ record_of "proj/src/foo.txt" 1 "hello world" ])
  ∧ ∃ (rx : @regex engine) secure_path full_path f i line,
      re_compile "hello" = inr rx
      ∧ get_secure_path project_world "proj" "w" "a" "s" = inr secure_path
      ∧ (full_path, f) ∈ candidates project_world secure_path true
      ∧ file_lines f !! i = Some line
      ∧ re_search rx line = true
      ∧ "proj/src/foo.txt"
        = match relpath project_world full_path
                  (session_root_of project_world "w" "a" "s") with
          | Some rel => rel
          | None => full_path
          end
      ∧ 1 = S i
      ∧ "hello world" = Py.strip line
      ∧ (∃ pre post,
           line = pre +:+ "hello world" +:+ post
           ∧ Py.blank pre = true ∧ Py.blank post = true)
      ∧ Py.space_prefix "hello world" = None
      ∧ Py.ends_with_space "hello world" = false.
Proof.
  assert (grep_search project_world "proj" "hello" "w" "a" "s" true !! "matches"
          = Some (PyList [ record_of "proj/src/foo.txt" 1 "hello world" ])) as Hms
    by (vm_compute; reflexivity).
  split; [exact Hms|].
  apply (display_path_relative_to_session_root (RE := engine) project_world
           "proj" "hello" "w" "a" "s" true _
           (record_of "proj/src/foo.txt" 1 "hello world") Hms).
  left.
Defined.

(** C3 at a pattern whose repetition count is too large.  [re.compile]
    raises [OverflowError] there, which is not an [re.error]: the
    exception leaves the function, and no error envelope (no dict at all)
    is returned.  Nothing has been resolved or read by then.  The pattern
    ["("], on which [re.compile] raises [re.error], does get the error
    envelope. *)
Theorem overflowing_pattern_is_not_reported :
  re_compile_raises "a{4294967296}"
  = Some (OverflowError "the repetition number is too large")
  ∧ grep_search_call project_world "proj" "a{4294967296}" "w" "a" "s" false
    = (Raises (OverflowError "the repetition number is too large"), [])
  ∧ (∀ result log,
       grep_search_call project_world "proj" "a{4294967296}" "w" "a" "s"
                        false
       ≠ (Returns result, log))
  ∧ grep_search_call project_world "proj" "(" "w" "a" "s" false
    = (Returns {[ "error" := PyStr ("Invalid regex pattern: "
                                    +:+ "missing ), unterminated subpattern") ]},
       []).
Proof. by vm_compute. Qed.

(** C8 at a target that does not exist: the recursive request answers the
    success envelope with no match, where the non-recursive request on the
    same target answers the error envelope. *)
Theorem missing_target_recursive_is_success :
  get_secure_path empty_world "proj" "w" "a" "s" = inr "/ws/w/a/s/proj"
  ∧ lookup_path empty_world "/ws/w/a/s/proj" = None
  ∧ grep_search empty_world "proj" "hello" "w" "a" "s" true
    = success_envelope "hello" "proj" true []
  ∧ grep_search empty_world "proj" "hello" "w" "a" "s" true !! "error" = None
  ∧ grep_search empty_world "proj" "hello" "w" "a" "s" false
    = {[ "error" := PyStr "Directory or file not found: proj" ]}.
Proof. by vm_compute. Qed.

(** The same for a target that cannot be listed. *)
Example unlistable_target_recursive_is_success :
  lookup_path locked_world "/ws/w/a/s/proj" = Some (Dir false [])
  ∧ grep_search locked_world "proj" "hello" "w" "a" "s" true
    = success_envelope "hello" "proj" true []
  ∧ grep_search locked_world "proj" "hello" "w" "a" "s" false
    = {[ "error" := PyStr "Permission denied accessing: proj" ]}.
Proof. by vm_compute. Qed.

(** ** Further properties of the function *)

Section Envelope.

Context `{RE : Regex}.
Variable W : World.
Variables path pattern workspace_id agent_id session_id : string.
Variable recursive : bool.

(** X1.  The dict that is returned has one of two sets of keys, and never
    a mixture: [error] alone (and then no [success]), or the six keys of
    the success envelope with or without [warning] (and then
    [success = True] and no [error]). *)
Theorem envelope_has_one_shape :
  (dom (grep_search W path pattern workspace_id agent_id session_id recursive)
   = {[ "error" ]}
   ∧ grep_search W path pattern workspace_id agent_id session_id recursive
       !! "success" = None
   ∧ ∃ msg,
       grep_search W path pattern workspace_id agent_id session_id recursive
         !! "error" = Some (PyStr msg))
  ∨ ((dom (grep_search W path pattern workspace_id agent_id session_id
                       recursive)
      = {[ "success"; "pattern"; "path"; "recursive"; "matches";
           "total_matches" ]}
      ∨ dom (grep_search W path pattern workspace_id agent_id session_id
                         recursive)
        = {[ "success"; "pattern"; "path"; "recursive"; "matches";
             "total_matches"; "warning" ]})
     ∧ grep_search W path pattern workspace_id agent_id session_id recursive
         !! "success" = Some (PyBool true)
     ∧ grep_search W path pattern workspace_id agent_id session_id recursive
         !! "error" = None).
Proof.
  unfold grep_search.
  assert (∀ e, dom (error_envelope path e) = ({[ "error" ]} : gset string)
               ∧ error_envelope path e !! "success" = None
               ∧ ∃ msg, error_envelope path e !! "error" = Some (PyStr msg))
    as Herr.
  { intros e. split; [destruct e; apply dom_singleton_L|].
    rewrite !error_envelope_lookup. split; [done|]. simpl. eauto. }
  destruct (re_compile pattern) as [msg|rx] eqn:Hre.
  { rewrite (run_invalid_pattern W _ _ _ _ _ recursive msg Hre). left.
    split; [apply dom_singleton_L|]. split; [done|].
    eexists. apply lookup_singleton_eq. }
  destruct (get_secure_path W path workspace_id agent_id session_id)
    as [e|secure_path] eqn:Hpath.
  { rewrite (run_resolver_failure W _ _ _ _ _ recursive rx e Hre Hpath).
    left. apply Herr. }
  destruct (run_resolved W _ _ _ _ _ recursive rx secure_path Hre Hpath)
    as [(e & tr & -> & _)|(ms & tr & -> & _)]; [left; apply Herr|right].
  simpl. rewrite success_envelope_success, success_envelope_error.
  split; [|done]. unfold success_envelope.
  destruct (MAX_MATCHES <=? length ms); [right|left];
    rewrite !dom_insert_L, dom_empty_L; set_solver.
Qed.

(** X2.  A success envelope echoes the request: its [pattern], [path] and
    [recursive] are the arguments of the call, unchanged (the path is the
    logical one, not the resolved one). *)
Theorem success_echoes_request :
  grep_search W path pattern workspace_id agent_id session_id recursive
    !! "success" = Some (PyBool true) →
  grep_search W path pattern workspace_id agent_id session_id recursive
    !! "pattern" = Some (PyStr pattern)
  ∧ grep_search W path pattern workspace_id agent_id session_id recursive
      !! "path" = Some (PyStr path)
  ∧ grep_search W path pattern workspace_id agent_id session_id recursive
      !! "recursive" = Some (PyBool recursive).
Proof.
  unfold grep_search. intros Hsuccess.
  destruct (re_compile pattern) as [msg|rx] eqn:Hre.
  { by rewrite (run_invalid_pattern W _ _ _ _ _ recursive msg Hre)
      in Hsuccess. }
  destruct (get_secure_path W path workspace_id agent_id session_id)
    as [e|secure_path] eqn:Hpath.
  { rewrite (run_resolver_failure W _ _ _ _ _ recursive rx e Hre Hpath)
      in Hsuccess.
    simpl in Hsuccess. by rewrite error_envelope_lookup in Hsuccess. }
  destruct (run_resolved W _ _ _ _ _ recursive rx secure_path Hre Hpath)
    as [(e & tr & Hrun & _)|(ms & tr & Hrun & _)];
    rewrite Hrun in *; simpl in *.
  { by rewrite error_envelope_lookup in Hsuccess. }
  unfold success_envelope. by case_match.
Qed.

(** X5.  In every mode the warning tells exactly that the cap was
    reached: a success envelope has the [warning] key if and only if its
    [total_matches] is 1000. *)
Theorem warning_iff_total_is_cap :
  grep_search W path pattern workspace_id agent_id session_id recursive
    !! "success" = Some (PyBool true) →
  is_Some (grep_search W path pattern workspace_id agent_id session_id
                       recursive !! "warning")
  ↔ grep_search W path pattern workspace_id agent_id session_id recursive
      !! "total_matches" = Some (PyInt 1000).
Proof.
  unfold grep_search. intros Hsuccess.
  destruct (re_compile pattern) as [msg|rx] eqn:Hre.
  { by rewrite (run_invalid_pattern W _ _ _ _ _ recursive msg Hre)
      in Hsuccess. }
  destruct (get_secure_path W path workspace_id agent_id session_id)
    as [e|secure_path] eqn:Hpath.
  { rewrite (run_resolver_failure W _ _ _ _ _ recursive rx e Hre Hpath)
      in Hsuccess.
    simpl in Hsuccess. by rewrite error_envelope_lookup in Hsuccess. }
  destruct (run_resolved W _ _ _ _ _ recursive rx secure_path Hre Hpath)
    as [(e & tr & Hrun & _)|(ms & tr & Hrun & Hms & _)];
    rewrite Hrun in *; simpl in *.
  { by rewrite error_envelope_lookup in Hsuccess. }
  rewrite success_envelope_warning, success_envelope_total.
  assert (length ms ≤ MAX_MATCHES) as Hle
    by (rewrite Hms, length_take; lia).
  change 1000 with MAX_MATCHES.
  destruct (Nat.leb_spec MAX_MATCHES (length ms)) as [Hge|Hlt].
  - split; [intros _|by eauto]. do 2 f_equal. lia.
  - split; [by intros [? ?]|]. intros [= Heq]. lia.
Qed.

(** X3.  When the resolver raises, the request ends there: the message of
    the error envelope is chosen by the class of the exception, and the
    resolver call is the only call that has been made, so the filesystem
    has not been touched. *)
Theorem resolver_failure_is_terminal rx e :
  re_compile pattern = inr rx →
  get_secure_path W path workspace_id agent_id session_id = inl e →
  grep_search_run W path pattern workspace_id agent_id session_id recursive
  = ({[ "error" :=
          PyStr (match e with
                 | FileNotFoundError =>
                     "Directory or file not found: " +:+ path
                 | PermissionError =>
                     "Permission denied accessing: " +:+ path
                 | Exception str =>
                     "Failed to perform grep search: " +:+ str
                 end) ]},
     [EvResolve path workspace_id agent_id session_id]).
Proof.
  intros Hre Hpath.
  rewrite (run_resolver_failure W _ _ _ _ _ recursive rx e Hre Hpath).
  by destruct e.
Qed.

End Envelope.

(** *** What is found when the cap is not reached *)

Section Membership.

Context `{RE : Regex}.
Variable W : World.
Variable rx : regex.
Variable session_root : string.

Lemma elem_of_hits_intro dp k lines i line :
  lines !! i = Some line → re_search rx line = true →
  record_of dp (k + i) line ∈ hits rx dp k lines.
Proof.
  revert k i. induction lines as [|l rest IH]; intros k i Hi Hre; [done|].
  simpl. apply elem_of_app. destruct i as [|i]; simpl in Hi.
  - injection Hi as ->. rewrite Hre, Nat.add_0_r. left. by left.
  - right. rewrite Nat.add_succ_r. by apply (IH (S k)).
Qed.

Lemma elem_of_all_records_intro cands p f i line :
  (p, f) ∈ cands → binary_ext p = false →
  file_lines f !! i = Some line → re_search rx line = true →
  record_of (display_path_of W session_root p) (S i) line
  ∈ flat_map (records W rx session_root) cands.
Proof.
  intros Hc Hext Hi Hre. apply list_elem_of_In, in_flat_map.
  exists (p, f). split; [by apply list_elem_of_In|].
  apply list_elem_of_In. unfold records. simpl. rewrite Hext.
  by apply (elem_of_hits_intro _ 1).
Qed.

Lemma hits_lower_bound m dp k lines :
  m ∈ hits rx dp k lines → k ≤ line_number m ∧ file m = dp.
Proof.
  intros (i & line & _ & _ & ->)%elem_of_hits. simpl. split; [lia|done].
Qed.

Lemma hits_increasing dp k lines j1 j2 m1 m2 :
  j1 < j2 →
  hits rx dp k lines !! j1 = Some m1 →
  hits rx dp k lines !! j2 = Some m2 →
  line_number m1 < line_number m2.
Proof.
  revert k j1 j2. induction lines as [|l rest IH]; intros k j1 j2 Hlt; [done|].
  simpl. destruct (re_search rx l); simpl; [|by apply IH].
  destruct j2 as [|j2]; [lia|]. destruct j1 as [|j1]; simpl.
  - intros [= <-] Hm2%list_elem_of_lookup_2%hits_lower_bound. simpl. lia.
  - apply IH. lia.
Qed.

Lemma elem_of_in_dir_intro root entries name f :
  (name, File f) ∈ entries →
  (Py.join root name, f) ∈ in_dir root (filenames_of entries).
Proof.
  induction entries as [|[name' [g|readable es]] rest IH]; simpl.
  - by intros ?%elem_of_nil.
  - intros [[= -> ->]|Hin]%elem_of_cons; [by left|]. right. by apply IH.
  - intros [[=]|Hin]%elem_of_cons. by apply IH.
Qed.



End Membership.

Section Completeness.

Context `{RE : Regex}.
Variable W : World.
Variables path pattern workspace_id agent_id session_id : string.

(** Without the warning nothing was cut off. *)
Lemma no_warning_no_truncation recursive rx secure_path ms :
  re_compile pattern = inr rx →
  get_secure_path W path workspace_id agent_id session_id = inr secure_path →
  grep_search W path pattern workspace_id agent_id session_id recursive
    !! "warning" = None →
  grep_search W path pattern workspace_id agent_id session_id recursive
    !! "matches" = Some (PyList ms) →
  ms = flat_map
         (records W rx (session_root_of W workspace_id agent_id session_id))
         (candidates W secure_path recursive).
Proof.
  intros Hre Hpath Hwarn Hms. unfold grep_search in *.
  destruct (run_resolved W _ _ _ _ _ recursive rx secure_path Hre Hpath)
    as [(e & tr & Hrun & _)|(ms' & tr & Hrun & Hms' & _)];
    rewrite Hrun in *; simpl in *.
  { by rewrite error_envelope_lookup in Hms. }
  rewrite success_envelope_matches in Hms.
  rewrite success_envelope_warning in Hwarn.
  assert (ms' = ms) as -> by congruence.
  destruct (Nat.leb_spec MAX_MATCHES (length ms)) as [|Hlt]; [done|].
  rewrite Hms'. rewrite Hms', length_take in Hlt.
  apply take_ge. lia.
Qed.

(** X6.  Without [recursive], and when the result carries no warning,
    nothing that was read is missed among the immediate children: for
    every file of the directory whose extension is not binary, every
    matching line among [file_lines], the lines that the read of the file
    yields, has its record in [matches].  These are all the lines of a
    file that is read to its end; of a file whose read fails, they are
    the lines yielded before the failure, and the others have no
    record. *)
Theorem non_recursive_finds_every_match
    rx secure_path entries ms name f i line :
  re_compile pattern = inr rx →
  get_secure_path W path workspace_id agent_id session_id = inr secure_path →
  lookup_path W secure_path = Some (Dir true entries) →
  grep_search W path pattern workspace_id agent_id session_id false
    !! "warning" = None →
  grep_search W path pattern workspace_id agent_id session_id false
    !! "matches" = Some (PyList ms) →
  (name, File f) ∈ entries →
  binary_ext (Py.join secure_path name) = false →
  file_lines f !! i = Some line →
  re_search rx line = true →
  record_of
    (display_path_of W (session_root_of W workspace_id agent_id session_id)
                     (Py.join secure_path name))
    (S i) line
  ∈ ms.
Proof.
  intros Hre Hpath Hdir Hwarn Hms Hname Hext Hline Hsearch.
  rewrite (no_warning_no_truncation false rx secure_path ms Hre Hpath Hwarn
             Hms).
  apply elem_of_all_records_intro with f; [|done..].
  unfold candidates. rewrite Hdir. by apply elem_of_in_dir_intro.
Qed.


(** X8.  For a single-file target the records all carry the display path
    of that file and come in the order of its lines, with strictly
    increasing line numbers; without the warning, and when the extension
    is not binary, every matching line among [file_lines], the lines that
    the read of the file yields, is among them (all the matching lines of
    a file that is read to its end; the ones yielded before the failure
    when the read fails). *)
Theorem single_file_records_in_line_order rx secure_path f ms :
  re_compile pattern = inr rx →
  get_secure_path W path workspace_id agent_id session_id = inr secure_path →
  lookup_path W secure_path = Some (File f) →
  ∀ recursive,
    grep_search W path pattern workspace_id agent_id session_id recursive
      !! "matches" = Some (PyList ms) →
    (∀ m, m ∈ ms →
       file m
       = display_path_of W
           (session_root_of W workspace_id agent_id session_id) secure_path)
    ∧ (∀ j1 j2 m1 m2,
         j1 < j2 → ms !! j1 = Some m1 → ms !! j2 = Some m2 →
         line_number m1 < line_number m2)
    ∧ (grep_search W path pattern workspace_id agent_id session_id recursive
         !! "warning" = None →
       binary_ext secure_path = false →
       ∀ i line,
         file_lines f !! i = Some line → re_search rx line = true →
         record_of
           (display_path_of W
              (session_root_of W workspace_id agent_id session_id)
              secure_path)
           (S i) line
         ∈ ms).
Proof.
  intros Hre Hpath Hfile recursive Hms.
  assert (candidates W secure_path recursive = [(secure_path, f)]) as Hc
    by (unfold candidates; by rewrite Hfile).
  split; [|split].
  - apply run_matches in Hms as (rx' & sp & Hrx & Hsp & ->).
    assert (sp = secure_path) as -> by congruence.
    rewrite Hc. simpl. rewrite app_nil_r. unfold records. simpl.
    intros m Hm%subseteq_take. destruct (binary_ext secure_path);
      [by apply elem_of_nil in Hm|].
    by apply hits_lower_bound in Hm as [_ ?].
  - apply run_matches in Hms as (rx' & sp & Hrx & Hsp & ->).
    assert (sp = secure_path) as -> by congruence.
    rewrite Hc. simpl. rewrite app_nil_r. unfold records. simpl.
    intros j1 j2 m1 m2 Hlt [H1 _]%lookup_take_Some [H2 _]%lookup_take_Some.
    destruct (binary_ext secure_path); [done|].
    by eapply hits_increasing.
  - intros Hwarn Hext i line Hline Hsearch.
    rewrite (no_warning_no_truncation recursive rx secure_path ms Hre Hpath
               Hwarn Hms).
    apply elem_of_all_records_intro with f; [|done..].
    rewrite Hc. by left.
Qed.

(** X4.  Without [recursive], a target that does not exist or cannot be
    listed is reported by the error envelope, with the message for its
    case; the target has been probed and listed, and nothing has been
    opened. *)
Theorem listing_failure_is_reported rx secure_path :
  re_compile pattern = inr rx →
  get_secure_path W path workspace_id agent_id session_id = inr secure_path →
  (lookup_path W secure_path = None →
   grep_search_run W path pattern workspace_id agent_id session_id false
   = ({[ "error" := PyStr ("Directory or file not found: " +:+ path) ]},
      [ EvResolve path workspace_id agent_id session_id;
        EvIsFile secure_path; EvListdir secure_path ]))
  ∧ (∀ entries,
       lookup_path W secure_path = Some (Dir false entries) →
       grep_search_run W path pattern workspace_id agent_id session_id false
       = ({[ "error" := PyStr ("Permission denied accessing: " +:+ path) ]},
          [ EvResolve path workspace_id agent_id session_id;
            EvIsFile secure_path; EvListdir secure_path ])).
Proof.
  intros Hre Hpath. split; [intros Hno|intros entries Hno];
    unfold grep_search_run, search_logic; by rewrite Hre, Hpath, Hno.
Qed.

End Completeness.

(** *** The log of calls *)

Section Calls.

Context `{RE : Regex}.
Variable W : World.
Variable rx : regex.
Variable session_root : string.

Lemma extends_same Q st st' : trace st' = trace st → extends Q st st'.
Proof. intros Heq. exists []. by rewrite app_nil_r. Qed.

Lemma extends_log Q e st : Q e → extends Q st (log e st).
Proof. intros He. exists [e]. split; [done|]. by constructor. Qed.

Lemma extends_trans Q st1 st2 st3 :
  extends Q st1 st2 → extends Q st2 st3 → extends Q st1 st3.
Proof.
  intros (evs1 & Heq1 & H1) (evs2 & Heq2 & H2). exists (evs1 ++ evs2).
  split; [by rewrite Heq2, Heq1, app_assoc|by apply Forall_app].
Qed.

Lemma extends_weaken (Q Q' : event → Prop) st st' :
  (∀ e, Q e → Q' e) → extends Q st st' → extends Q' st st'.
Proof.
  intros Himp (evs & Heq & Hall). exists evs. split; [done|].
  by eapply Forall_impl.
Qed.

Lemma process_file_extends p f st :
  extends (λ e, e = EvOpen p) st (process_file W rx session_root p f st).2.
Proof.
  unfold process_file. destruct (binary_ext p); [by apply extends_same|].
  apply (extends_trans _ st (log (EvOpen p) st)); [by apply extends_log|].
  apply extends_same, scan_lines_trace.
Qed.

Lemma elem_of_filenames_of name f entries :
  (name, f) ∈ filenames_of entries → (name, File f) ∈ entries.
Proof.
  induction entries as [|[name' [g|readable es]] rest IH]; simpl.
  - by intros ?%elem_of_nil.
  - intros [[= -> ->]|Hin]%elem_of_cons; [by left|]. right. by apply IH.
  - intros Hin. right. by apply IH.
Qed.

Lemma inside_top top n e : event_path e = Some top → inside top n e.
Proof. intros He. exists []. split; [constructor|done]. Qed.

Lemma inside_entry top readable entries name sub e :
  (name, sub) ∈ entries →
  event_path e = Some (Py.join top name) →
  inside top (Dir readable entries) e.
Proof.
  intros Hin He. exists [name]. split; [|done].
  econstructor; [done|constructor].
Qed.

Lemma inside_below top readable entries d sub e :
  (d, sub) ∈ entries →
  inside (Py.join top d) sub e →
  inside top (Dir readable entries) e.
Proof.
  intros Hin (loc & Hloc & He). exists (d :: loc).
  split; [by econstructor|done].
Qed.

Lemma walk_filenames_extends top readable entries filenames st :
  (∀ name f, (name, f) ∈ filenames → (name, File f) ∈ entries) →
  extends (λ e, (∃ p, e = EvOpen p) ∧ inside top (Dir readable entries) e)
          st (walk_filenames W rx session_root top filenames st).
Proof.
  revert st. induction filenames as [|[name f] rest IH]; intros st Hsub.
  - by apply extends_same.
  - simpl. destruct (cap_reached st); [by apply extends_same|].
    pose proof (process_file_extends (Py.join top name) f st) as Hp.
    apply (extends_weaken _
             (λ e, (∃ p, e = EvOpen p) ∧ inside top (Dir readable entries) e))
      in Hp; cycle 1.
    { intros e ->. split; [by eexists|].
      apply (inside_entry _ _ _ name (File f)); [|done].
      apply Hsub. by left. }
    destruct (process_file _ _ _ _ _ _) as [[] st']; simpl in *; [|done].
    apply (extends_trans _ st st'); [done|].
    apply IH. intros name' f' Hin. apply Hsub. by right.
Qed.

Lemma listdir_loop_extends secure_path readable entries items st :
  (∀ x, x ∈ items → x ∈ entries) →
  extends (λ e, (∃ p, e = EvIsFile p ∨ e = EvOpen p)
                ∧ inside secure_path (Dir readable entries) e)
          st (listdir_loop W rx session_root secure_path items st).
Proof.
  revert st. induction items as [|[item n] rest IH]; intros st Hsub.
  - by apply extends_same.
  - simpl. set (full_path := Py.join secure_path item).
    assert (∀ e, event_path e = Some full_path →
                 inside secure_path (Dir readable entries) e) as Hin.
    { intros e He. apply (inside_entry _ _ _ item n); [|done].
      apply Hsub. by left. }
    assert (∀ x, x ∈ rest → x ∈ entries) as Hrest
      by (intros x Hx; apply Hsub; by right).
    eapply extends_trans.
    { apply (extends_log _ (EvIsFile full_path)).
      split; [eexists; by left|by apply Hin]. }
    destruct n as [f|r es]; [|by apply IH].
    pose proof (process_file_extends full_path f
                  (log (EvIsFile full_path) st)) as Hp.
    apply (extends_weaken _
             (λ e, (∃ p, e = EvIsFile p ∨ e = EvOpen p)
                   ∧ inside secure_path (Dir readable entries) e))
      in Hp; cycle 1.
    { intros e ->. split; [eexists; by right|by apply Hin]. }
    destruct (process_file _ _ _ _ _ _) as [[] st']; simpl in *; [|done].
    eapply extends_trans; [done|]. by apply IH.
Qed.

Lemma walk_dirs_extends top entries es st :
  (∀ x, x ∈ es → x ∈ entries) →
  Forall (λ e, ∀ top st,
            extends (λ ev, (∃ p, ev = EvWalk p ∨ ev = EvOpen p)
                           ∧ inside top e.2 ev)
                    st (walk W rx session_root top e.2 st).2) es →
  extends (λ e, (∃ p, e = EvWalk p ∨ e = EvOpen p)
                ∧ inside top (Dir true entries) e)
          st (walk_dirs W rx session_root top es st).2.
Proof.
  intros Hsub Hall. revert st Hsub.
  induction Hall as [|[d sub] rest Hd _ IHrest]; intros st Hsub.
  - by apply extends_same.
  - rewrite walk_dirs_cons.
    assert (∀ x, x ∈ rest → x ∈ entries) as Hrest
      by (intros x Hx; apply Hsub; by right).
    simpl in Hd.
    destruct sub as [f|r es']; [by apply IHrest|].
    destruct (bool_decide (d ∈ IGNORED_DIRS)); [by apply IHrest|].
    specialize (Hd (Py.join top d) st).
    apply (extends_weaken _
             (λ e, (∃ p, e = EvWalk p ∨ e = EvOpen p)
                   ∧ inside top (Dir true entries) e)) in Hd; cycle 1.
    { intros e [? ?]. split; [done|].
      apply (inside_below _ _ _ d (Dir r es')); [|done].
      apply Hsub. by left. }
    destruct (walk _ _ _ _ _ _) as [[] st']; simpl in *; [done|].
    eapply extends_trans; [done|]. by apply IHrest.
Qed.

Lemma walk_extends n top st :
  extends (λ e, (∃ p, e = EvWalk p ∨ e = EvOpen p) ∧ inside top n e)
          st (walk W rx session_root top n st).2.
Proof.
  revert top st.
  induction n as [f|readable entries IH] using node_ind_entries;
    intros top st.
  - apply extends_log. split; [eexists; by left|by apply inside_top].
  - assert (extends (λ e, (∃ p, e = EvWalk p ∨ e = EvOpen p)
                          ∧ inside top (Dir readable entries) e)
                    st (log (EvWalk top) st)) as Hlog.
    { apply extends_log. split; [eexists; by left|by apply inside_top]. }
    destruct readable; [|done].
    rewrite walk_dir_unfold. cbv zeta.
    destruct (cap_reached (log (EvWalk top) st)); [done|].
    eapply extends_trans; [exact Hlog|].
    eapply extends_trans; [|by apply walk_dirs_extends].
    eapply extends_weaken;
      [|exact (walk_filenames_extends top true entries
                 (filenames_of entries) (log (EvWalk top) st)
                 (λ name f, elem_of_filenames_of name f entries))].
    intros e [[p ->] ?]. split; [eexists; by right|done].
Qed.

Lemma search_logic_extends secure_path recursive st :
  extends
    (λ e,
       match lookup_path W secure_path with
       | Some n => inside secure_path n e
       | None => event_path e = Some secure_path
       end
       ∧ (∀ p, e = EvListdir p → recursive = false)
       ∧ (∀ p, e = EvWalk p → recursive = true)
       ∧ (∀ f, lookup_path W secure_path = Some (File f) →
               e = EvIsFile secure_path ∨ e = EvOpen secure_path))
    st (search_logic W rx session_root secure_path recursive st).2.
Proof.
  unfold search_logic.
  match goal with |- extends ?q _ _ => set (Q := q) end.
  destruct (lookup_path W secure_path) as [[f|readable entries]|] eqn:Hlook.
  - simpl. eapply extends_trans.
    { apply (extends_log _ (EvIsFile secure_path)).
      split; [by apply inside_top|]. repeat split; [done..|]. by left. }
    eapply extends_weaken; [|apply process_file_extends].
    intros e ->. split; [by apply inside_top|].
    repeat split; [done..|]. by right.
  - assert (extends Q st (log (EvIsFile secure_path) st)) as Hlog.
    { apply extends_log. split; [by apply inside_top|]. by repeat split. }
    destruct recursive; simpl.
    + eapply extends_trans; [exact Hlog|].
      eapply extends_weaken; [|apply walk_extends].
      intros e [[p [->| ->]] ?]; by repeat split.
    + assert (extends Q st (log (EvListdir secure_path)
                                (log (EvIsFile secure_path) st))) as Hlist.
      { eapply extends_trans; [exact Hlog|]. apply extends_log.
        split; [by apply inside_top|]. by repeat split. }
      destruct readable; [|done].
      eapply extends_trans; [exact Hlist|].
      eapply extends_weaken;
        [|by apply (listdir_loop_extends secure_path true entries)].
      intros e [[p [->| ->]] ?]; by repeat split.
  - assert (extends Q st (log (EvIsFile secure_path) st)) as Hlog.
    { apply extends_log. by repeat split. }
    destruct recursive; simpl;
      (eapply extends_trans; [exact Hlog|]); apply extends_log;
      by repeat split.
Qed.

End Calls.

Section CallsOfARequest.

Context `{RE : Regex}.
Variable W : World.
Variables path pattern workspace_id agent_id session_id : string.
Variable recursive : bool.

Lemma run_calls rx secure_path :
  re_compile pattern = inr rx →
  get_secure_path W path workspace_id agent_id session_id = inr secure_path →
  ∃ evs,
    (grep_search_run W path pattern workspace_id agent_id session_id
                     recursive).2
    = EvResolve path workspace_id agent_id session_id :: evs
    ∧ Forall
        (λ e,
           match lookup_path W secure_path with
           | Some n => inside secure_path n e
           | None => event_path e = Some secure_path
           end
           ∧ (∀ p, e = EvListdir p → recursive = false)
       ∧ (∀ p, e = EvWalk p → recursive = true)
           ∧ (∀ f, lookup_path W secure_path = Some (File f) →
                   e = EvIsFile secure_path ∨ e = EvOpen secure_path))
        evs.
Proof.
  intros Hre Hpath. unfold grep_search_run. rewrite Hre, Hpath.
  set (st0 := {| matches := []; trace := _ |}).
  destruct (search_logic_extends W rx
              (session_root_of W workspace_id agent_id session_id)
              secure_path recursive st0) as (evs & Heq & Hall).
  exists evs. split; [|done].
  by destruct (search_logic _ _ _ _ _ _) as [[e|[]] st'].
Qed.

(** X9.  Once the pattern has compiled, the resolver is called exactly
    once, with the arguments of the request, and before anything else:
    every other call of the request is a call on a path of the
    filesystem and comes after it. *)
Theorem resolver_is_called_once_and_first rx :
  re_compile pattern = inr rx →
  ∃ evs,
    (grep_search_run W path pattern workspace_id agent_id session_id
                     recursive).2
    = EvResolve path workspace_id agent_id session_id :: evs
    ∧ Forall (λ e, is_Some (event_path e)) evs.
Proof.
  intros Hre.
  destruct (get_secure_path W path workspace_id agent_id session_id)
    as [e|secure_path] eqn:Hpath.
  { exists []. split; [|done].
    by rewrite (run_resolver_failure W _ _ _ _ _ recursive rx e Hre Hpath). }
  destruct (run_calls rx secure_path Hre Hpath) as (evs & Heq & Hall).
  exists evs. split; [done|]. eapply Forall_impl; [exact Hall|].
  intros e [Hin _]. destruct (lookup_path W secure_path); [|by rewrite Hin].
  destruct Hin as (loc & _ & ->). done.
Qed.

(** X12.  Every call on the filesystem is made on the resolved path or on
    a path built from it by joining the names of entries that are found
    below it, one level after the other: the function goes nowhere the
    resolver has not put it. *)
Theorem calls_stay_below_resolved_path rx secure_path e :
  re_compile pattern = inr rx →
  get_secure_path W path workspace_id agent_id session_id = inr secure_path →
  e ∈ (grep_search_run W path pattern workspace_id agent_id session_id
                       recursive).2 →
  e = EvResolve path workspace_id agent_id session_id
  ∨ (lookup_path W secure_path = None ∧ event_path e = Some secure_path)
  ∨ (∃ tree loc,
       lookup_path W secure_path = Some tree
       ∧ reaches tree loc
       ∧ event_path e = Some (Py.join_all secure_path loc)).
Proof.
  intros Hre Hpath He.
  destruct (run_calls rx secure_path Hre Hpath) as (evs & Heq & Hall).
  rewrite Heq in He. apply elem_of_cons in He as [->|He]; [by left|right].
  rewrite Forall_forall in Hall. destruct (Hall e He) as [Hin _].
  destruct (lookup_path W secure_path) as [tree|]; [right|by left].
  destruct Hin as (loc & ? & ?). by exists tree, loc.
Qed.

(** X10.  The calls made depend on the mode as the three branches say: a
    recursive request never calls [os.listdir], a non-recursive one never
    has [os.walk] list a directory, and for a target that is a file the
    only calls after the resolver are [isfile] and [open] on that one
    path. *)
Theorem calls_follow_the_mode rx secure_path :
  re_compile pattern = inr rx →
  get_secure_path W path workspace_id agent_id session_id = inr secure_path →
  (recursive = true →
   ∀ p, EvListdir p
        ∉ (grep_search_run W path pattern workspace_id agent_id session_id
                           recursive).2)
  ∧ (recursive = false →
     ∀ p, EvWalk p
          ∉ (grep_search_run W path pattern workspace_id agent_id session_id
                             recursive).2)
  ∧ (∀ f e,
       lookup_path W secure_path = Some (File f) →
       e ∈ (grep_search_run W path pattern workspace_id agent_id session_id
                            recursive).2 →
       e = EvResolve path workspace_id agent_id session_id
       ∨ e = EvIsFile secure_path
       ∨ e = EvOpen secure_path).
Proof.
  intros Hre Hpath.
  destruct (run_calls rx secure_path Hre Hpath) as (evs & Heq & Hall).
  rewrite Heq. rewrite Forall_forall in Hall.
  split; [|split].
  - intros Hrec p [[=]|He]%elem_of_cons.
    destruct (Hall _ He) as (_ & Hmode & _). specialize (Hmode p eq_refl).
    congruence.
  - intros Hrec p [[=]|He]%elem_of_cons.
    destruct (Hall _ He) as (_ & _ & Hmode & _). specialize (Hmode p eq_refl).
    congruence.
  - intros f e Hfile [->|He]%elem_of_cons; [by left|right].
    destruct (Hall _ He) as (_ & _ & _ & Hf). by apply (Hf f).
Qed.

End CallsOfARequest.

(** *** Which files a recursive request opens *)

Arguments opened_until_cap : simpl never.

Section OpenedFiles.

Context `{RE : Regex}.
Variable W : World.
Variable rx : regex.
Variable session_root : string.

Local Abbreviation opens_account := (opens_account W rx session_root).

Lemma opened_paths_app tr1 tr2 :
  opened_paths (tr1 ++ tr2) = opened_paths tr1 ++ opened_paths tr2.
Proof. apply flat_map_app. Qed.

Lemma opened_until_cap_cons c rest ms :
  opened_until_cap W rx session_root (c :: rest) ms
  = if MAX_MATCHES <=? length ms then []
    else (if binary_ext c.1 then [] else [c.1])
         ++ opened_until_cap W rx session_root rest
              (absorb ms (records W rx session_root c)).
Proof. reflexivity. Qed.

Lemma opened_until_cap_capped cands ms :
  MAX_MATCHES ≤ length ms → opened_until_cap W rx session_root cands ms = [].
Proof.
  intros Hcap. destruct cands as [|c rest]; [done|].
  rewrite opened_until_cap_cons.
  by destruct (Nat.leb_spec MAX_MATCHES (length ms)); [|lia].
Qed.

Lemma opened_until_cap_app c1 c2 ms :
  opened_until_cap W rx session_root (c1 ++ c2) ms
  = opened_until_cap W rx session_root c1 ms
    ++ opened_until_cap W rx session_root c2
         (absorb ms (flat_map (records W rx session_root) c1)).
Proof.
  revert ms. induction c1 as [|c rest IH]; intros ms.
  - simpl. by rewrite absorb_nil.
  - rewrite <- app_comm_cons, !opened_until_cap_cons.
    change (flat_map (records W rx session_root) (c :: rest))
      with (records W rx session_root c
            ++ flat_map (records W rx session_root) rest).
    destruct (Nat.leb_spec MAX_MATCHES (length ms)) as [Hcap|_].
    + rewrite absorb_full by done. by rewrite opened_until_cap_capped.
    + by rewrite IH, absorb_app, <- app_assoc.
Qed.

Lemma elem_of_opened_until_cap p cands ms :
  p ∈ opened_until_cap W rx session_root cands ms →
  binary_ext p = false ∧ ∃ f, (p, f) ∈ cands.
Proof.
  revert ms. induction cands as [|[q f] rest IH]; intros ms.
  - by intros ?%elem_of_nil.
  - rewrite opened_until_cap_cons. cbn [fst].
    destruct (MAX_MATCHES <=? length ms); [by intros ?%elem_of_nil|].
    intros [Hp|Hp]%elem_of_app.
    + destruct (binary_ext q) eqn:Hq; [by apply elem_of_nil in Hp|].
      apply list_elem_of_singleton in Hp as ->. split; [done|].
      exists f. by left.
    + destruct (IH _ Hp) as (? & f' & ?). split; [done|].
      exists f'. by right.
Qed.

Lemma opens_account_refl st : opens_account [] st st.
Proof. split; [by rewrite absorb_nil|by rewrite app_nil_r]. Qed.

Lemma opens_account_log e st :
  (∀ p, e ≠ EvOpen p) → opens_account [] st (log e st).
Proof.
  intros Hne. split; [by rewrite absorb_nil|]. simpl.
  rewrite opened_paths_app, app_nil_r. simpl.
  destruct e; rewrite ?app_nil_r; try done. by destruct (Hne p).
Qed.

Lemma opens_account_trans c1 c2 st1 st2 st3 :
  opens_account c1 st1 st2 → opens_account c2 st2 st3 →
  opens_account (c1 ++ c2) st1 st3.
Proof.
  intros [Hm1 Ho1] [Hm2 Ho2]. split.
  - by rewrite Hm2, Hm1, absorb_app, flat_map_app.
  - by rewrite Ho2, Ho1, Hm1, opened_until_cap_app, app_assoc.
Qed.

Lemma opens_account_capped c1 c2 st st' :
  opens_account c1 st st' → cap_reached st' = true →
  opens_account (c1 ++ c2) st st'.
Proof.
  intros [Hm Ho] Hcap%cap_reached_true. split.
  - rewrite flat_map_app, <- absorb_app, <- Hm. by rewrite absorb_full.
  - rewrite opened_until_cap_app, <- Hm.
    by rewrite (opened_until_cap_capped c2), app_nil_r.
Qed.

Lemma process_file_opens_account p f st :
  cap_reached st = false →
  opens_account [(p, f)] st (process_file W rx session_root p f st).2.
Proof.
  intros Hcap. split.
  - rewrite process_file_matches. simpl. by rewrite app_nil_r.
  - rewrite process_file_trace, opened_until_cap_cons. cbn [fst].
    unfold cap_reached in Hcap. rewrite Hcap.
    change (opened_until_cap W rx session_root [] _) with (@nil string).
    rewrite app_nil_r.
    destruct (binary_ext p); [by rewrite app_nil_r|].
    by rewrite opened_paths_app.
Qed.

Lemma walk_filenames_opens_account root filenames st :
  opens_account (in_dir root filenames) st
                (walk_filenames W rx session_root root filenames st).
Proof.
  revert st. induction filenames as [|[name f] rest IH]; intros st.
  - apply opens_account_refl.
  - simpl. destruct (cap_reached st) eqn:Hcap.
    + apply (opens_account_capped []); [apply opens_account_refl|done].
    + pose proof (process_file_opens_account (Py.join root name) f st Hcap)
        as Hacc.
      pose proof (process_file_stop W rx session_root (Py.join root name) f st)
        as Hstop.
      destruct (process_file _ _ _ _ _ _) as [[] st']; simpl in *.
      * apply (opens_account_trans [_] _ st st'); [done|apply IH].
      * apply (opens_account_capped [_]); auto.
Qed.

Lemma walk_dirs_opens_account top entries st :
  Forall (λ e, ∀ top st,
            opens_account (walk_files top e.2) st
                          (walk W rx session_root top e.2 st).2
            ∧ ((walk W rx session_root top e.2 st).1 = true →
               cap_reached (walk W rx session_root top e.2 st).2 = true))
         entries →
  opens_account (walk_files_dirs top entries) st
                (walk_dirs W rx session_root top entries st).2
  ∧ ((walk_dirs W rx session_root top entries st).1 = true →
     cap_reached (walk_dirs W rx session_root top entries st).2 = true).
Proof.
  intros Hall. revert st.
  induction Hall as [|[d sub] rest Hsub _ IH]; intros st.
  - split; [apply opens_account_refl|done].
  - rewrite walk_dirs_cons, walk_files_dirs_cons.
    specialize (Hsub (Py.join top d) st). simpl in Hsub.
    destruct sub as [f|readable entries]; [apply IH|].
    destruct (bool_decide (d ∈ IGNORED_DIRS)); [apply IH|].
    destruct (walk _ _ _ _ _ _) as [[] st']; simpl in *.
    + destruct Hsub as [Hacc Hcap]. split; [|done].
      apply opens_account_capped; auto.
    + destruct Hsub as [Hacc _]. destruct (IH st') as [Hrest Hcap].
      split; [|done]. by apply (opens_account_trans _ _ st st').
Qed.

Lemma walk_opens_account n top st :
  opens_account (walk_files top n) st (walk W rx session_root top n st).2
  ∧ ((walk W rx session_root top n st).1 = true →
     cap_reached (walk W rx session_root top n st).2 = true).
Proof.
  revert top st.
  induction n as [f|readable entries IH] using node_ind_entries;
    intros top st.
  - destruct (walk_leaf_unfold W rx session_root top (File f) st)
      as [-> ->]; [done|].
    split; [by apply opens_account_log|done].
  - destruct readable; cycle 1.
    { destruct (walk_leaf_unfold W rx session_root top (Dir false entries) st)
        as [-> ->]; [done|].
      split; [by apply opens_account_log|done]. }
    rewrite walk_dir_unfold, walk_files_dir_unfold. cbv zeta.
    assert (opens_account [] st (log (EvWalk top) st)) as Hlog
      by (by apply opens_account_log).
    destruct (cap_reached (log (EvWalk top) st)) eqn:Hcap.
    + simpl. split; [|done]. apply (opens_account_capped []); auto.
    + pose proof (walk_filenames_opens_account top (filenames_of entries)
                    (log (EvWalk top) st)) as Hfiles.
      destruct (walk_dirs_opens_account top entries
                  (walk_filenames W rx session_root top
                     (filenames_of entries) (log (EvWalk top) st)) IH)
        as [Hdirs Hbrk].
      split; [|done].
      apply (opens_account_trans [] _ st _ _ Hlog).
      by eapply opens_account_trans.
Qed.

End OpenedFiles.

Section RecursiveOpens.

Context `{RE : Regex}.
Variable W : World.
Variables path pattern workspace_id agent_id session_id : string.

(** X11.  The stopping rule of the recursive branch.  The files a
    recursive request opens are, in order, the candidates with a
    non-binary extension that are met while fewer than 1000 records have
    been collected; so once the candidates met so far hold 1000 records or
    more, no later candidate is opened. *)
Theorem recursive_opens_until_cap rx secure_path :
  re_compile pattern = inr rx →
  get_secure_path W path workspace_id agent_id session_id = inr secure_path →
  opened_paths
    (grep_search_run W path pattern workspace_id agent_id session_id true).2
  = opened_until_cap W rx
      (session_root_of W workspace_id agent_id session_id)
      (candidates W secure_path true) []
  ∧ (∀ met later p,
       candidates W secure_path true = met ++ later →
       1000 ≤ length
                (flat_map
                   (records W rx
                      (session_root_of W workspace_id agent_id session_id))
                   met) →
       EvOpen p
       ∈ (grep_search_run W path pattern workspace_id agent_id session_id
                          true).2 →
       ∃ f, (p, f) ∈ met).
Proof.
  intros Hre Hpath.
  set (root := session_root_of W workspace_id agent_id session_id).
  assert (opened_paths
            (grep_search_run W path pattern workspace_id agent_id session_id
                             true).2
          = opened_until_cap W rx root (candidates W secure_path true) [])
    as Hopened.
  { unfold grep_search_run, search_logic, candidates. rewrite Hre, Hpath.
    fold root.
    set (st0 := {| matches := []; trace := _ |}).
    set (st1 := log (EvIsFile secure_path) st0).
    assert (cap_reached st1 = false) as Hcap by done.
    destruct (lookup_path W secure_path) as [[f|readable entries]|]; simpl.
    - by destruct (process_file_opens_account W rx root secure_path f st1 Hcap)
        as [_ ->].
    - destruct (walk_opens_account W rx root (Dir readable entries)
                  secure_path st1) as [[_ ->] _].
      by destruct readable.
    - done. }
  split; [done|].
  intros met later p Hsplit Hfull Hp.
  assert (p ∈ opened_until_cap W rx root met []) as Hin.
  { assert (p ∈ opened_paths
                  (grep_search_run W path pattern workspace_id agent_id
                                   session_id true).2) as Hp'.
    { apply list_elem_of_In, in_flat_map. exists (EvOpen p).
      split; [by apply list_elem_of_In|by left]. }
    rewrite Hopened, Hsplit, opened_until_cap_app in Hp'.
    rewrite (opened_until_cap_capped W rx root later), app_nil_r in Hp';
      [done|].
    rewrite absorb_empty, length_take. change 1000 with MAX_MATCHES in Hfull.
    fold root in Hfull. lia. }
  by apply elem_of_opened_until_cap in Hin as [_ ?].
Qed.

End RecursiveOpens.

(** *** Instances of the further properties *)

Lemma success_echoes_request_witness :
  grep_search project_world "proj" "TODO" "w" "a" "s" false !! "pattern"
  = Some (PyStr "TODO")
  ∧ grep_search project_world "proj" "TODO" "w" "a" "s" false !! "path"
    = Some (PyStr "proj")
  ∧ grep_search project_world "proj" "TODO" "w" "a" "s" false !! "recursive"
    = Some (PyBool false).
Proof.
  apply (success_echoes_request (RE := engine) project_world
           "proj" "TODO" "w" "a" "s" false).
  vm_compute. reflexivity.
Defined.

Lemma warning_iff_total_is_cap_witness :
  is_Some (grep_search project_world "proj" "TODO" "w" "a" "s" false
             !! "warning")
  ↔ grep_search project_world "proj" "TODO" "w" "a" "s" false
      !! "total_matches" = Some (PyInt 1000).
Proof.
  apply (warning_iff_total_is_cap (RE := engine) project_world
           "proj" "TODO" "w" "a" "s" false).
  vm_compute. reflexivity.
Defined.

Lemma resolver_failure_is_terminal_witness :
  grep_search_run (Refusing.world (Exception "outside the sandbox"))
                  "../x" "TODO" "w" "a" "s" true
  = ({[ "error" :=
          PyStr ("Failed to perform grep search: " +:+ "outside the sandbox")
     ]},
     [EvResolve "../x" "w" "a" "s"]).
Proof.
  apply (resolver_failure_is_terminal (RE := engine)
           (Refusing.world (Exception "outside the sandbox"))
           "../x" "TODO" "w" "a" "s" true "TODO"
           (Exception "outside the sandbox"));
    reflexivity.
Defined.

Lemma listing_failure_is_reported_witness :
  grep_search_run empty_world "proj" "hello" "w" "a" "s" false
  = ({[ "error" := PyStr ("Directory or file not found: " +:+ "proj") ]},
     [ EvResolve "proj" "w" "a" "s";
       EvIsFile "/ws/w/a/s/proj"; EvListdir "/ws/w/a/s/proj" ]).
Proof.
  apply (proj1 (listing_failure_is_reported (RE := engine) empty_world
                  "proj" "hello" "w" "a" "s" "hello" "/ws/w/a/s/proj"
                  eq_refl eq_refl)).
  reflexivity.
Defined.

Lemma non_recursive_finds_every_match_witness :
  ∃ ms,
    grep_search project_world "proj" "TODO" "w" "a" "s" false !! "matches"
    = Some (PyList ms)
    ∧ record_of "proj/notes.txt" 1 "TODO: fix" ∈ ms.
Proof.
  eexists. split; [vm_compute; reflexivity|].
  refine (non_recursive_finds_every_match (RE := engine) project_world
            "proj" "TODO" "w" "a" "s" "TODO" "/ws/w/a/s/proj" _ _
            "notes.txt" {| file_lines := ["TODO: fix"; "done"];
                           file_error := None |}
            0 "TODO: fix" _ _ _ _ _ _ _ _ _);
    first [reflexivity | by left | by vm_compute].
Defined.


Lemma single_file_records_in_line_order_witness :
  grep_search (log_world 3) "large.logs" "error" "w" "a" "s" false
    !! "matches"
  = Some (PyList [ record_of "large.logs" 1 "error: crash happened";
                   record_of "large.logs" 2 "error: crash happened";
                   record_of "large.logs" 3 "error: crash happened" ])
  ∧ file (record_of "large.logs" 2 "error: crash happened")
    = display_path_of (log_world 3) (session_root_of (log_world 3) "w" "a" "s")
        "/ws/w/a/s/large.logs".
Proof.
  assert (grep_search (log_world 3) "large.logs" "error" "w" "a" "s" false
            !! "matches"
          = Some (PyList [ record_of "large.logs" 1 "error: crash happened";
                           record_of "large.logs" 2 "error: crash happened";
                           record_of "large.logs" 3 "error: crash happened" ]))
    as Hms by (vm_compute; reflexivity).
  split; [exact Hms|].
  refine (proj1 (single_file_records_in_line_order (RE := engine)
                   (log_world 3) "large.logs" "error" "w" "a" "s"
                   "error" "/ws/w/a/s/large.logs"
                   {| file_lines := repeat "error: crash happened" 3;
                      file_error := None |}
                   _ eq_refl eq_refl eq_refl false Hms) _ _).
  right. left.
Defined.

Lemma resolver_is_called_once_and_first_witness :
  ∃ evs,
    (grep_search_run project_world "proj" "hello" "w" "a" "s" true).2
    = EvResolve "proj" "w" "a" "s" :: evs
    ∧ Forall (λ e, is_Some (event_path e)) evs.
Proof.
  apply (resolver_is_called_once_and_first (RE := engine) project_world
           "proj" "hello" "w" "a" "s" true "hello").
  reflexivity.
Defined.

Lemma calls_stay_below_resolved_path_witness :
  EvOpen "/ws/w/a/s/proj/src/foo.txt"
    ∈ (grep_search_run project_world "proj" "hello" "w" "a" "s" true).2
  ∧ (EvOpen "/ws/w/a/s/proj/src/foo.txt" = EvResolve "proj" "w" "a" "s"
     ∨ (lookup_path project_world "/ws/w/a/s/proj" = None
        ∧ event_path (EvOpen "/ws/w/a/s/proj/src/foo.txt")
          = Some "/ws/w/a/s/proj")
     ∨ (∃ tree loc,
          lookup_path project_world "/ws/w/a/s/proj" = Some tree
          ∧ reaches tree loc
          ∧ event_path (EvOpen "/ws/w/a/s/proj/src/foo.txt")
            = Some (Py.join_all "/ws/w/a/s/proj" loc))).
Proof.
  assert (EvOpen "/ws/w/a/s/proj/src/foo.txt"
            ∈ (grep_search_run project_world "proj" "hello" "w" "a" "s"
                               true).2) as Hopen
    by (vm_compute; do 6 right; left).
  split; [exact Hopen|].
  exact (calls_stay_below_resolved_path (RE := engine) project_world
           "proj" "hello" "w" "a" "s" true "hello" "/ws/w/a/s/proj" _
           eq_refl eq_refl Hopen).
Defined.

Lemma calls_follow_the_mode_witness :
  EvListdir "/ws/w/a/s/proj"
  ∉ (grep_search_run project_world "proj" "hello" "w" "a" "s" true).2.
Proof.
  exact (proj1 (calls_follow_the_mode (RE := engine) project_world
                  "proj" "hello" "w" "a" "s" true "hello" "/ws/w/a/s/proj"
                  eq_refl eq_refl) eq_refl "/ws/w/a/s/proj").
Defined.

Lemma recursive_opens_until_cap_witness :
  opened_paths
    (grep_search_run project_world "proj" "hello" "w" "a" "s" true).2
  = opened_until_cap project_world ("hello" : @regex engine)
      (session_root_of project_world "w" "a" "s")
      (candidates project_world "/ws/w/a/s/proj" true) [].
Proof.
  exact (proj1 (recursive_opens_until_cap (RE := engine) project_world
                  "proj" "hello" "w" "a" "s" "hello" "/ws/w/a/s/proj"
                  eq_refl eq_refl)).
Defined.

(** The stopping rule is that of the recursive branch only: a listing
    goes on opening files after the cap is reached, up to the first file
    that has a line. *)
Example listing_opens_after_the_cap :
  opened_paths
    (grep_search_run
       (world "/ws/w/a/s/logs"
              (Some (Dir true [ ("a.log", big_log 1000);
                                ("b.log", text []);
                                ("c.log", text ["error: again"]);
                                ("d.log", text ["error: again"]) ])))
       "logs" "error" "w" "a" "s" false).2
  = [ "/ws/w/a/s/logs/a.log"; "/ws/w/a/s/logs/b.log";
      "/ws/w/a/s/logs/c.log" ]
  ∧ opened_paths
      (grep_search_run
         (world "/ws/w/a/s/logs"
                (Some (Dir true [ ("a.log", big_log 1000);
                                  ("b.log", text []);
                                  ("c.log", text ["error: again"]);
                                  ("d.log", text ["error: again"]) ])))
         "logs" "error" "w" "a" "s" true).2
    = [ "/ws/w/a/s/logs/a.log" ].
Proof. by vm_compute. Qed.

(** *** The extension is that of the file name *)

Section Extension.

Local Open Scope Z_scope.

Lemma rfind_from_shift c s i l i' l' :
  (Py.rfind_from c s i l = l ∧ Py.rfind_from c s i' l' = l')
  ∨ (∃ k, 0 ≤ k < Z.of_nat (String.length s)
          ∧ Py.rfind_from c s i l = i + k
          ∧ Py.rfind_from c s i' l' = i' + k).
Proof.
  revert i l i' l'. induction s as [|c0 s IH]; intros i l i' l'; [by left|].
  simpl Py.rfind_from.
  destruct (IH (i + 1) (if Ascii.eqb c0 c then i else l)
               (i' + 1) (if Ascii.eqb c0 c then i' else l'))
    as [[-> ->]|(k & Hk & -> & ->)].
  - destruct (Ascii.eqb c0 c); [right|by left].
    exists 0. simpl String.length. split; [lia|]. split; lia.
  - right. exists (k + 1). simpl String.length. split; [lia|]. split; lia.
Qed.

Lemma rfind_from_app c a b i l :
  Py.rfind_from c (a +:+ b) i l
  = Py.rfind_from c b (i + Z.of_nat (String.length a)) (Py.rfind_from c a i l).
Proof.
  revert i l. induction a as [|c0 a IH]; intros i l.
  - simpl. by rewrite Z.add_0_r.
  - change (String c0 a +:+ b) with (String c0 (a +:+ b)).
    simpl Py.rfind_from. rewrite IH. simpl String.length. f_equal. lia.
Qed.

Lemma rfind_from_endswith_sep a i l :
  Py.endswith_sep a = true →
  Py.rfind_from "/" a i l = i + Z.of_nat (String.length a) - 1.
Proof.
  revert i l. induction a as [|c0 a IH]; intros i l; [done|].
  destruct a as [|c1 a].
  - simpl. intros ->. lia.
  - intros Hend. change (Py.endswith_sep (String c1 a) = true) in Hend.
    simpl Py.rfind_from in *. rewrite (IH _ _ Hend).
    simpl String.length. lia.
Qed.

Lemma substring_app_skip a b n m :
  String.substring (String.length a + n) m (a +:+ b) = String.substring n m b.
Proof. induction a as [|c0 a IH]; [done|]. simpl. apply IH. Qed.

Lemma length_append a b :
  String.length (a +:+ b) = (String.length a + String.length b)%nat.
Proof. induction a as [|c0 a IH]; [done|]. simpl. by rewrite <- IH. Qed.

Lemma endswith_sep_snoc a : Py.endswith_sep (a +:+ "/") = true.
Proof.
  induction a as [|c0 a IH]; [done|].
  change (String c0 a +:+ "/") with (String c0 (a +:+ "/")).
  simpl. destruct (a +:+ "/") eqn:Ha; [|done].
  by destruct a.
Qed.

Lemma startswith_sep_no_slash name :
  Py.rfind "/" name = -1 → Py.startswith_sep name = false.
Proof.
  destruct name as [|c0 name]; [done|]. unfold Py.rfind. simpl.
  destruct (Ascii.eqb_spec c0 "/") as [->|Hne].
  - intros Hfind.
    destruct (rfind_from_shift "/" name (0 + 1) 0 (0 + 1) 0)
      as [[Heq _]|(k & Hk & Heq & _)]; lia.
  - intros _. destruct c0 as [[] [] [] [] [] [] [] []]; try done.
Qed.

(** The extension of [a +:+ name], for a prefix [a] that ends with the
    separator and a name without one, is that of [name]. *)
Lemma splitext_below_prefix a name :
  Py.endswith_sep a = true →
  Py.rfind "/" name = -1 →
  (Py.splitext (a +:+ name)).2 = (Py.splitext name).2.
Proof.
  intros Hend Hname. unfold Py.splitext, Py.rfind in *.
  rewrite !rfind_from_app. rewrite Hname.
  assert (Py.rfind_from "/" name (0 + Z.of_nat (String.length a))
            (Py.rfind_from "/" a 0 (-1))
          = Z.of_nat (String.length a) - 1) as ->.
  { destruct (rfind_from_shift "/" name (0 + Z.of_nat (String.length a))
                (Py.rfind_from "/" a 0 (-1)) 0 (-1))
      as [[-> _]|(k & Hk & _ & Heq)]; [|lia].
    rewrite (rfind_from_endswith_sep a 0 (-1) Hend). lia. }
  destruct (rfind_from_shift "." name (0 + Z.of_nat (String.length a))
              (Py.rfind_from "." a 0 (-1)) 0 (-1))
    as [[-> ->]|(k & Hk & -> & ->)].
  - assert (Py.rfind_from "." a 0 (-1) ≤ Z.of_nat (String.length a) - 1)
      as Hdot.
    { destruct (rfind_from_shift "." a 0 (-1) 0 (-1))
        as [[-> _]|(k & Hk & -> & _)]; lia. }
    destruct (Z.ltb_spec (Z.of_nat (String.length a) - 1)
                         (Py.rfind_from "." a 0 (-1))); [lia|]. done.
  - destruct (Z.ltb_spec (Z.of_nat (String.length a) - 1)
                         (0 + Z.of_nat (String.length a) + k)); [|lia].
    destruct (Z.ltb_spec (-1) (0 + k)); [|lia].
    unfold Py.slice.
    replace (Z.to_nat (Z.of_nat (String.length a) - 1 + 1))
      with (String.length a + 0)%nat by lia.
    replace (Z.to_nat (0 + Z.of_nat (String.length a) + k
                       - (Z.of_nat (String.length a) - 1 + 1)))
      with (Z.to_nat k) by lia.
    rewrite substring_app_skip.
    replace (Z.to_nat (-1 + 1)) with 0%nat by lia.
    replace (Z.to_nat (0 + k - (-1 + 1))) with (Z.to_nat k) by lia.
    simpl andb.
    destruct (Py.all_dots (String.substring 0 (Z.to_nat k) name)); [done|].
    simpl. rewrite length_append.
    replace (Z.to_nat (0 + Z.of_nat (String.length a) + k))
      with (String.length a + Z.to_nat k)%nat by lia.
    rewrite substring_app_skip.
    replace (Z.to_nat (0 + k)) with (Z.to_nat k) by lia.
    f_equal. lia.
Qed.

(** X13.  Whether a file is skipped as binary depends on its own name
    only: for a name without a separator, as every directory entry is,
    the test on the joined path gives what it gives on the name, whatever
    dots or extensions the directories above it carry. *)
Theorem binary_ext_depends_on_name_only root name :
  Py.rfind "/" name = -1 →
  binary_ext (Py.join root name) = binary_ext name.
Proof.
  intros Hname. unfold binary_ext.
  assert ((Py.splitext (Py.join root name)).2 = (Py.splitext name).2) as Hext.
  { unfold Py.join. rewrite (startswith_sep_no_slash name Hname).
    destruct (String.eqb_spec root EmptyString) as [->|Hroot]; [done|].
    simpl orb. destruct (Py.endswith_sep root) eqn:Hend.
    - by apply splitext_below_prefix.
    - replace (root +:+ "/" +:+ name) with ((root +:+ "/") +:+ name).
      + apply splitext_below_prefix; [apply endswith_sep_snoc|done].
      + clear. induction root as [|c0 root IH]; [done|].
        change (String c0 (((root +:+ "/") +:+ name))
                = String c0 (root +:+ "/" +:+ name)). by f_equal. }
  destruct (Py.splitext (Py.join root name)) as [r1 e1],
    (Py.splitext name) as [r2 e2]. simpl in Hext. by subst.
Qed.

End Extension.

Lemma binary_ext_depends_on_name_only_witness :
  binary_ext (Py.join "/ws/w/a/s/photos.png" "notes.txt")
  = binary_ext "notes.txt".
Proof.
  apply (binary_ext_depends_on_name_only "/ws/w/a/s/photos.png" "notes.txt").
  reflexivity.
Defined.

(** *** The result as a whole *)

Section Order.

Context `{RE : Regex}.
Variable W : World.
Variables path pattern workspace_id agent_id session_id : string.
Variable recursive : bool.

(** X14.  What [matches] holds, in full: for the candidate files whose
    extension is not binary, the records of the matching lines among the
    lines that the read of each file yields (all its lines, or the lines
    yielded before the read fails), file after file in the order of the
    traversal and line after line within a file, cut after the first
    1000.  The content of a record is the line as [str.strip] leaves
    it. *)
Theorem matches_are_the_first_records ms :
  grep_search W path pattern workspace_id agent_id session_id recursive
    !! "matches" = Some (PyList ms) →
  ∃ rx secure_path,
    re_compile pattern = inr rx
    ∧ get_secure_path W path workspace_id agent_id session_id
      = inr secure_path
    ∧ ms = take 1000
             (flat_map
                (records W rx
                   (session_root_of W workspace_id agent_id session_id))
                (candidates W secure_path recursive)).
Proof. apply run_matches. Qed.

End Order.

Lemma matches_are_the_first_records_witness :
  ∃ (rx : @regex engine) secure_path,
    re_compile "hello" = inr rx
    ∧ get_secure_path project_world "proj" "w" "a" "s" = inr secure_path
    ∧ [ record_of "proj/src/foo.txt" 1 "  hello world  " ]
      = take 1000
          (flat_map
             (records project_world rx
                (session_root_of project_world "w" "a" "s"))
             (candidates project_world secure_path true)).
Proof.
  apply (matches_are_the_first_records (RE := engine) project_world
           "proj" "hello" "w" "a" "s" true).
  vm_compute. reflexivity.
Defined.

(** ** Whitespace beyond ASCII, and reads that fail half-way *)

(** [strip] takes a no-break space and an ideographic space off as it
    takes blanks and the line feed off. *)
Example strip_padded_line : Py.strip padded_line = "hello world".
Proof. by vm_compute. Qed.

Example padded_line_record :
  grep_search padded_world "note.txt" "hello" "w" "a" "s" false !! "matches"
  = Some (PyList [ record_of "note.txt" 1 "hello world" ]).
Proof. by vm_compute. Qed.

(** A zero-width space (U+200B) is not whitespace for [str.isspace]: it
    stays, and so does the blank that follows it. *)
Example strip_keeps_zero_width_space :
  let zwsp := String (ascii_of_nat 226)
                (String (ascii_of_nat 128)
                   (String (ascii_of_nat 139) EmptyString)) in
  Py.strip (" " +:+ zwsp +:+ " x " +:+ nbsp) = zwsp +:+ " x".
Proof. by vm_compute. Qed.

(** A file whose read fails after two lines: the records of the two lines
    are kept, the failure does not show, and the lines that were never
    yielded have no record. *)
Example read_failure_keeps_what_was_read :
  grep_search torn_world "torn.txt" "hello" "w" "a" "s" false
  = success_envelope "hello" "torn.txt" false
      [ record_of "torn.txt" 1 "hello one";
        record_of "torn.txt" 2 "hello two" ]
  ∧ grep_search torn_world "torn.txt" "hello" "w" "a" "s" false
      !! "warning" = None.
Proof. by vm_compute. Qed.
